(** * MazeGame_react: the maze generator and the movement guard of [src/App.tsx]

    A shallow embedding of [generateMaze] and of the key handler's movement
    step, followed by the properties of the generated grids. *)

From Stdlib Require Import ZArith Lia List.
From stdpp Require Import base list.

Local Open Scope Z_scope.

(* ===================================================================== *)
(** ** Data model *)
(* ===================================================================== *)

(** [type Cell = 0 | 1]: 0 is a wall, 1 is a passage. *)
Inductive Cell : Type := Wall | Path.

Global Instance Cell_eq_dec : EqDecision Cell.
Proof. solve_decision. Defined.

(** A JavaScript array of cells. A slot is [Some c] when it holds a cell and
    [None] when it is an empty slot (a hole left by a write past the end):
    reading a hole gives [undefined], like reading past the end. *)
Definition Row : Type := list (option Cell).

(** [type Maze = Cell[][]], indexed [maze[y][x]]. *)
Definition Maze : Type := list Row.

(** Coordinates [x, y]: JavaScript numbers that stay integral here; they may
    be negative ([x - 2] at the left edge). *)
Definition Coord : Type := (Z * Z)%type.

(** How an evaluation ends: with a value, with the [TypeError] that indexing
    [undefined] throws, with the [RangeError] that creating an array of an
    invalid length throws, or, for the model of the [while] loop only, with
    the iteration budget used up. *)
Inductive Outcome (A : Type) : Type :=
| Returned (a : A)
| TypeError
| RangeError
| OutOfFuel.
Arguments Returned {A} a.
Arguments TypeError {A}.
Arguments RangeError {A}.
Arguments OutOfFuel {A}.

Definition bind {A B} (o : Outcome A) (k : A -> Outcome B) : Outcome B :=
  match o with
  | Returned a => k a
  | TypeError => TypeError
  | RangeError => RangeError
  | OutOfFuel => OutOfFuel
  end.

Notation "'let*' x ':=' o 'in' k" := (bind o (fun x => k))
  (at level 10, x pattern, o at level 100, k at level 200).

(** [const MAZE_WIDTH = 21; const MAZE_HEIGHT = 21;] *)
Definition MAZE_WIDTH : Z := 21.
Definition MAZE_HEIGHT : Z := 21.
(** [const START_X = 1; const START_Y = 1;] *)
Definition START_X : Z := 1.
Definition START_Y : Z := 1.
(** [const GOAL_X = MAZE_WIDTH - 2; const GOAL_Y = MAZE_HEIGHT - 2;] *)
Definition GOAL_X : Z := MAZE_WIDTH - 2.
Definition GOAL_Y : Z := MAZE_HEIGHT - 2.

(* --------------------------------------------------------------------- *)
(** *** Array reads and writes *)

(** [maze[y]]: the row, or [undefined] ([None]) outside [0 .. length-1]. *)
Definition row_at (maze : Maze) (y : Z) : option Row :=
  if y <? 0 then None else maze !! Z.to_nat y.

(** [row[x]]: the cell, or [undefined] for a hole or an index out of range. *)
Definition elem_at (row : Row) (x : Z) : option Cell :=
  if x <? 0 then None else mjoin (row !! Z.to_nat x).

(** The value of [maze[y]?.[x]] (see [opt_index] below). *)
Definition read (maze : Maze) (x y : Z) : option Cell :=
  match row_at maze y with
  | None => None
  | Some row => elem_at row x
  end.

(** [r?.[x]] for a row [r] that may be [undefined]: optional chaining gives
    [undefined] where plain indexing would throw. *)
Definition opt_index (r : option Row) (x : Z) : Outcome (option Cell) :=
  match r with
  | None => Returned None
  | Some row => Returned (elem_at row x)
  end.

(** [row[x] = v]. Inside the array the slot is replaced; past the end the
    array grows, the slots in between staying empty. A negative index names
    a property that is not an array element, so the elements are unchanged
    (no write of the program has a negative column). *)
Definition array_set (row : Row) (x : Z) (v : Cell) : Row :=
  if x <? 0 then row
  else if (Z.to_nat x <? length row)%nat then <[Z.to_nat x := Some v]> row
  else row ++ replicate (Z.to_nat x - length row)%nat None ++ [Some v].

(** [maze[y][x] = v]: throws a [TypeError] when [maze[y]] is [undefined]. *)
Definition write (maze : Maze) (x y : Z) (v : Cell) : Outcome Maze :=
  match row_at maze y with
  | None => TypeError
  | Some row => Returned (<[Z.to_nat y := array_set row x v]> maze)
  end.

(* ===================================================================== *)
(** ** The maze generator *)
(* ===================================================================== *)

(** The largest length an array can have, [2^32 - 1]. *)
Definition MAX_ARRAY_LENGTH : Z := 4294967295.

(** [Array.from({ length: n }, callback)]. A length above [2^32 - 1] is not
    an array length and throws a [RangeError]; a negative length counts as
    0; otherwise the callback runs once for every slot, in order. The
    callbacks of the program take no argument and build an equal value at
    every call, so the array holds [n] copies of that value; a callback that
    throws ends the call, and the callback does not run at all for the
    length 0. *)
Definition array_from {A} (n : Z) (callback : Outcome A) : Outcome (list A) :=
  if MAX_ARRAY_LENGTH <? n then RangeError
  else if n <=? 0 then Returned []
  else let* v := callback in Returned (replicate (Z.to_nat n) v).

(** The all-wall grid built at the top of [generateMaze]. Every row comes
    from its own call of the inner [Array.from], so no two rows are the
    same array and a write to one row leaves the others as they are. *)
Definition init_maze (width height : Z) : Outcome Maze :=
  array_from height (array_from width (Returned (Some Wall))).

(** The [directions] array, in its initial order. *)
Definition directions : list Coord := [(2, 0); (-2, 0); (0, 2); (0, -2)].

(** [arr.sort(() => Math.random() - 0.5)] leaves the array in a permutation
    of its elements that depends on the random draws. The model takes the
    draws as one number [k] and reads it as a choice sequence: the first
    element is the one at index [k mod n], the next one is chosen from the
    remaining ones by [k / n], and so on. Every permutation is the result of
    some [k] ([shuffle_complete] below). *)
Fixpoint select {A} (n k : nat) (arr : list A) : list A :=
  match n with
  | O => []
  | S n' =>
      let i := (k mod length arr)%nat in
      match arr !! i with
      | Some a => a :: select n' (k / length arr)%nat (delete i arr)
      | None => []
      end
  end.

Definition shuffle {A} (k : nat) (arr : list A) : list A :=
  select (length arr) k arr.

(** The body of the [forEach] callback for the cell [(x, y)] just popped and
    one direction [(dx, dy)]. It works on the grid and the stack, whose top
    is the head of the list ([push] conses, [pop] takes the head). *)
Definition visit (x y : Z) (st : Maze * list Coord) (d : Coord)
  : Outcome (Maze * list Coord) :=
  let '(maze, stack) := st in
  let '(dx, dy) := d in
  let nx := x + dx in
  let ny := y + dy in
  let* c := opt_index (row_at maze ny) nx in
  match c with
  | Some Wall =>
      let* maze1 := write maze nx ny Path in
      let* maze2 := write maze1 (x + dx / 2) (y + dy / 2) Path in
      Returned (maze2, (nx, ny) :: stack)
  | _ => Returned (maze, stack)
  end.

(** [dirs.forEach(...)]: the callback runs on every element, in order. *)
Fixpoint forEach (x y : Z) (dirs : list Coord) (st : Maze * list Coord)
  : Outcome (Maze * list Coord) :=
  match dirs with
  | [] => Returned st
  | d :: rest => let* st' := visit x y st d in forEach x y rest st'
  end.

(** The state of the [while] loop: the grid, the stack, the [directions]
    array (sorted in place by every [shuffle], so its order carries over to
    the next iteration) and the number of shuffles done so far, which indexes
    the random source. [popped] is a ghost list: the cells popped so far,
    latest first. *)
Record LoopState : Type := mkLoop {
  ls_maze : Maze;
  ls_stack : list Coord;
  ls_dirs : list Coord;
  ls_tick : nat;
  ls_popped : list Coord
}.

(** One iteration of [while (stack.length)], for a non-empty stack. *)
Definition iteration (rnd : nat -> nat) (st : LoopState) (x y : Z)
    (rest : list Coord) : Outcome LoopState :=
  let dirs := shuffle (rnd (ls_tick st)) (ls_dirs st) in
  let* r := forEach x y dirs (ls_maze st, rest) in
  Returned (mkLoop (fst r) (snd r) dirs (S (ls_tick st))
                   ((x, y) :: ls_popped st)).

(** [while (stack.length) { ... }], with a budget of [fuel] iterations. *)
Fixpoint carve (fuel : nat) (rnd : nat -> nat) (st : LoopState)
  : Outcome LoopState :=
  match ls_stack st with
  | [] => Returned st
  | (x, y) :: rest =>
      match fuel with
      | O => OutOfFuel
      | S fuel' => let* st' := iteration rnd st x y rest in carve fuel' rnd st'
      end
  end.

(** The state after [k] iterations of the loop, or the final state when the
    loop ends earlier. *)
Fixpoint steps (k : nat) (rnd : nat -> nat) (st : LoopState)
  : Outcome LoopState :=
  match k with
  | O => Returned st
  | S k' =>
      match ls_stack st with
      | [] => Returned st
      | (x, y) :: rest =>
          let* st' := iteration rnd st x y rest in steps k' rnd st'
      end
  end.

(** The state in which the loop is entered: the start cell is already a
    passage and is the only cell on the stack. *)
Definition enter_loop (width height : Z) : Outcome LoopState :=
  let* maze := init_maze width height in
  let stack := [(START_X, START_Y)] in
  let* maze := write maze START_X START_Y Path in
  Returned (mkLoop maze stack directions 0 []).

(** [generateMaze(width, height)], the random draws being [rnd]. *)
Definition generateMaze (fuel : nat) (rnd : nat -> nat) (width height : Z)
  : Outcome Maze :=
  let* st0 := enter_loop width height in
  let* st := carve fuel rnd st0 in
  write (ls_maze st) GOAL_X GOAL_Y Path.

(* ===================================================================== *)
(** ** The movement step of [handleKeyDown] *)
(* ===================================================================== *)

(** [e.key], as far as the handler looks at it. *)
Inductive Key : Type := ArrowUp | ArrowDown | ArrowLeft | ArrowRight | OtherKey.

(** The candidate position computed from the key. *)
Definition candidate (pos : Coord) (k : Key) : Coord :=
  let '(nx, ny) := pos in
  let ny := match k with ArrowUp => ny - 1 | _ => ny end in
  let ny := match k with ArrowDown => ny + 1 | _ => ny end in
  let nx := match k with ArrowLeft => nx - 1 | _ => nx end in
  let nx := match k with ArrowRight => nx + 1 | _ => nx end in
  (nx, ny).

(** The test [maze[ny]?.[nx] === 1]. *)
Definition canMoveTo (maze : Maze) (nx ny : Z) : Outcome bool :=
  let* c := opt_index (row_at maze ny) nx in
  Returned (bool_decide (c = Some Path)).

(** [handleKeyDown]: the player's position after the key. *)
Definition handleKeyDown (maze : Maze) (pos : Coord) (k : Key) : Outcome Coord :=
  let '(nx, ny) := candidate pos k in
  let* ok := canMoveTo maze nx ny in
  if ok then Returned (nx, ny) else Returned pos.

(* ===================================================================== *)
(** ** Notions used in the statements *)
(* ===================================================================== *)

(** The dimensions for which one of the two [Array.from] calls is given a
    length that is not an array length: the outer one for [height], the
    inner one, which runs only when there is a row to build, for [width]. *)
Definition array_too_long (width height : Z) : Prop :=
  MAX_ARRAY_LENGTH < height \/ (0 < height /\ MAX_ARRAY_LENGTH < width).

(** The grid of [height] rows of [width] walls: what [init_maze] builds when
    no length is too long. *)
Definition wall_grid (width height : Z) : Maze :=
  replicate (Z.to_nat height) (replicate (Z.to_nat width) (Some Wall)).

(** Inside the [width] x [height] rectangle. *)
Definition inb (width height x y : Z) : Prop :=
  0 <= x < width /\ 0 <= y < height.

Global Instance inb_dec width height x y : Decision (inb width height x y).
Proof. unfold inb. apply _. Defined.

(** All coordinates of the [width] x [height] rectangle, row by row. *)
Definition cells (width height : Z) : list Coord :=
  y ← seqZ 0 height; (fun x => (x, y)) <$> seqZ 0 width.

(** The cell [c] of the grid is a passage. *)
Definition is_path (maze : Maze) (c : Coord) : Prop :=
  read maze c.1 c.2 = Some Path.

(** 4-directional adjacency. *)
Definition adjacent (a b : Coord) : Prop :=
  Z.abs (a.1 - b.1) + Z.abs (a.2 - b.2) = 1.

(** [reach maze a c]: [c] is reached from [a] by steps between adjacent
    cells, all of them passages ([a] and [c] included). *)
Inductive reach (maze : Maze) (a : Coord) : Coord -> Prop :=
| reach_here : is_path maze a -> reach maze a a
| reach_step b c :
    reach maze a b -> adjacent b c -> is_path maze c -> reach maze a c.

(** The grid only gains passages: no passage is lost, no wall appears, and
    the rows stay the same in number. *)
Definition grows (m m' : Maze) : Prop :=
  (forall x y, read m x y = Some Path -> read m' x y = Some Path) /\
  (forall x y, read m' x y = Some Wall -> read m x y = Some Wall) /\
  (forall y, is_Some (row_at m y) <-> is_Some (row_at m' y)).

(** [m'] is [m] with the cell two steps from [(x, y)] in direction [d] and
    the cell between them turned into passages. *)
Definition carved (m : Maze) (x y : Z) (d : Coord) (m' : Maze) : Prop :=
  (forall x' y', read m' x' y' =
     if decide ((x' = x + d.1 /\ y' = y + d.2) \/
                (x' = x + d.1 / 2 /\ y' = y + d.2 / 2))
     then Some Path else read m x' y') /\
  (forall y', is_Some (row_at m y') <-> is_Some (row_at m' y')).

(** [visited x y dirs st st']: running the callback for the popped cell
    [(x, y)] over [dirs] takes the grid and stack [st] to [st']. A direction
    is skipped when the cell two steps away is not a wall at that moment;
    otherwise that cell and the one in between are carved and the cell is
    pushed. *)
Inductive visited (x y : Z)
  : list Coord -> Maze * list Coord -> Maze * list Coord -> Prop :=
| visited_nil st : visited x y [] st st
| visited_skip d ds m stack st' :
    read m (x + d.1) (y + d.2) <> Some Wall ->
    visited x y ds (m, stack) st' ->
    visited x y (d :: ds) (m, stack) st'
| visited_carve d ds m stack m' st' :
    read m (x + d.1) (y + d.2) = Some Wall ->
    carved m x y d m' ->
    visited x y ds (m', (x + d.1, y + d.2) :: stack) st' ->
    visited x y (d :: ds) (m, stack) st'.

(** The number of walls inside the rectangle. *)
Definition walls (width height : Z) (m : Maze) : nat :=
  length (filter (fun c : Coord => read m c.1 c.2 = Some Wall)
                 (cells width height)).

(** Every wall of the grid lies inside the rectangle. *)
Definition walls_inside (width height : Z) (m : Maze) : Prop :=
  forall x y, read m x y = Some Wall -> inb width height x y.

(** The part of the loop invariant that holds for all dimensions. *)
Record wf (width height : Z) (st : LoopState) : Prop := {
  wf_stack : forall c, c ∈ ls_stack st ->
               0 <= c.1 /\ is_Some (row_at (ls_maze st) c.2);
  wf_dirs : ls_dirs st ≡ₚ directions;
  wf_walls : walls_inside width height (ls_maze st)
}.

(** The quantity that decreases at every iteration of the loop. *)
Definition measure (width height : Z) (st : LoopState) : nat :=
  (length (ls_stack st) + walls width height (ls_maze st))%nat.

(** The lattice: the cells with both coordinates odd. *)
Definition lattice (c : Coord) : Prop := c.1 mod 2 = 1 /\ c.2 mod 2 = 1.

Global Instance lattice_dec c : Decision (lattice c).
Proof. unfold lattice. apply _. Defined.

Global Instance is_path_dec m c : Decision (is_path m c).
Proof. unfold is_path. apply _. Defined.

(** Nodes of the carving graph inside the rectangle: the lattice cells of
    the rectangle that are passages. Edges: the other passages of the
    rectangle, each of which is the opened wall between two lattice cells.
    These count the rectangle only: a passage that the goal write leaves
    outside of it is not among them, and the statements about all the
    passages of a grid use [enumerates] instead. *)
Definition nodes (width height : Z) (m : Maze) : nat :=
  length (filter (fun c => is_path m c /\ lattice c) (cells width height)).

Definition edges (width height : Z) (m : Maze) : nat :=
  length (filter (fun c => is_path m c /\ ~ lattice c) (cells width height)).

(** The passages of the rectangle: the cells the run has carved, since the
    initial grid is all wall there. *)
Definition carved_cells (width height : Z) (m : Maze) : list Coord :=
  filter (is_path m) (cells width height).

(** The invariant of the grid during the loop. *)
Record grid_inv (width height : Z) (m : Maze) : Prop := {
  gi_dom : forall x y, inb width height x y -> is_Some (read m x y);
  gi_wall : walls_inside width height m;
  gi_path : forall x y, read m x y = Some Path ->
              1 <= x <= width - 2 /\ 1 <= y <= height - 2 /\
              (x mod 2 = 1 \/ y mod 2 = 1);
  gi_conn : forall c, is_path m c -> reach m (START_X, START_Y) c;
  gi_mid_x : forall x y, read m x y = Some Path -> x mod 2 = 0 ->
               read m (x - 1) y = Some Path /\ read m (x + 1) y = Some Path;
  gi_mid_y : forall x y, read m x y = Some Path -> y mod 2 = 0 ->
               read m x (y - 1) = Some Path /\ read m x (y + 1) = Some Path;
  gi_count : nodes width height m = S (edges width height m)
}.

(** [m'] is [m] with the cells at one and at two steps [(hx, hy)] from
    [(x, y)] turned into passages. *)
Definition opened (m : Maze) (x y hx hy : Z) (m' : Maze) : Prop :=
  forall x' y', read m' x' y' =
    if decide ((x' = x + 2 * hx /\ y' = y + 2 * hy) \/
               (x' = x + hx /\ y' = y + hy))
    then Some Path else read m x' y'.

(** The invariant of the loop. *)
Record loop_inv (width height : Z) (st : LoopState) : Prop := {
  li_wf : wf width height st;
  li_grid : grid_inv width height (ls_maze st);
  li_start : read (ls_maze st) START_X START_Y = Some Path;
  li_stack : forall c, c ∈ ls_stack st -> is_path (ls_maze st) c /\ lattice c;
  li_closed : forall c, is_path (ls_maze st) c -> lattice c ->
    c ∈ ls_stack st \/
    forall d, d ∈ directions -> inb width height (c.1 + d.1) (c.2 + d.2) ->
              read (ls_maze st) (c.1 + d.1) (c.2 + d.2) = Some Path;
  li_nodup : NoDup (ls_stack st ++ ls_popped st);
  li_popped : forall c, c ∈ ls_popped st -> is_path (ls_maze st) c
}.

(** Every cell pushed while the callback runs over [ds] comes from one
    direction [d] of [ds]: after the directions before [d] the cell was a
    wall, and the callback for [d] made it and the cell in between passages
    and pushed it. *)
Definition pushed_by (x y : Z) (ds : list Coord) (m : Maze) (stack : list Coord)
    (m' : Maze) (c : Coord) : Prop :=
  exists ds1 d ds2 m1 s1 m2,
    ds = ds1 ++ d :: ds2 /\ c = (x + d.1, y + d.2) /\
    forEach x y ds1 (m, stack) = Returned (m1, s1) /\
    read m1 c.1 c.2 = Some Wall /\
    visit x y (m1, s1) d = Returned (m2, c :: s1) /\
    read m2 c.1 c.2 = Some Path /\
    read m2 (x + d.1 / 2) (y + d.2 / 2) = Some Path /\
    read m' c.1 c.2 = Some Path /\
    read m' (x + d.1 / 2) (y + d.2 / 2) = Some Path.

(** A random source for the examples. *)
Definition sample_rnd : nat -> nat := fun n => n.

(** The grid generated with it for the dimensions of the game. *)
Definition sample_maze : Maze :=
  Eval vm_compute in
    match generateMaze 441 sample_rnd MAZE_WIDTH MAZE_HEIGHT with
    | Returned g => g
    | _ => []
    end.

(** [(x, y)] is inside the grid [maze]: row [y] exists and has a slot [x]. *)
Definition in_bounds (maze : Maze) (x y : Z) : Prop :=
  0 <= y /\ 0 <= x /\
  exists row, maze !! Z.to_nat y = Some row /\ (Z.to_nat x < length row)%nat.

(** [maze[y][x]] is the passage value 1. *)
Definition cell_is_path (maze : Maze) (x y : Z) : Prop :=
  exists row, maze !! Z.to_nat y = Some row /\
              row !! Z.to_nat x = Some (Some Path).

(** The player's position after a sequence of [keydown] events. *)
Fixpoint play (maze : Maze) (pos : Coord) (keys : list Key) : Outcome Coord :=
  match keys with
  | [] => Returned pos
  | k :: rest => let* pos' := handleKeyDown maze pos k in play maze pos' rest
  end.

(** Non-positive, even, or too small to hold the start and the goal. *)
Definition invalid_dimensions (width height : Z) : Prop :=
  width <= 0 \/ height <= 0 \/ width mod 2 = 0 \/ height mod 2 = 0 \/
  width < 3 \/ height < 3.

(** [l] lists the cells that have the property [P], each of them once: the
    number of such cells is the length of [l]. *)
Definition enumerates (l : list Coord) (P : Coord -> Prop) : Prop :=
  NoDup l /\ forall c, c ∈ l <-> P c.

(** The arrow key that goes the other way. *)
Definition opposite (k : Key) : Key :=
  match k with
  | ArrowUp => ArrowDown
  | ArrowDown => ArrowUp
  | ArrowLeft => ArrowRight
  | ArrowRight => ArrowLeft
  | OtherKey => OtherKey
  end.

(** A grid of exactly [height] rows of exactly [width] slots each, none of
    them empty. *)
Definition rectangular (width height : Z) (m : Maze) : Prop :=
  length m = Z.to_nat height /\
  forall row, row ∈ m ->
    length row = Z.to_nat width /\ forall c, c ∈ row -> is_Some c.

(** The cells handled by the loop so far are lattice cells, and every
    lattice cell that is a passage is on the stack or has been popped. *)
Record lattice_inv (st : LoopState) : Prop := {
  lv_popped : forall c, c ∈ ls_popped st -> lattice c;
  lv_all : forall c, is_path (ls_maze st) c -> lattice c ->
             c ∈ ls_stack st ++ ls_popped st
}.

(** The lattice cells of the rectangle. *)
Definition lattice_cells (width height : Z) : list Coord :=
  filter lattice (cells width height).

(* --------------------------------------------------------------------- *)
(** *** The rendering *)

(** The four values of [className]: ['cell player'], ['cell goal'],
    ['cell path'] and ['cell wall']. *)
Inductive ClassName : Type := cell_player | cell_goal | cell_path | cell_wall.

(** The [className] of the [div] drawn for the cell [cell] at column [x] of
    row [y]. *)
Definition className (playerX playerY x y : Z) (cell : Cell) : ClassName :=
  let isPlayer := (x =? playerX) && (y =? playerY) in
  let isGoal := (x =? GOAL_X) && (y =? GOAL_Y) in
  if isPlayer then cell_player
  else if isGoal then cell_goal
  else if bool_decide (cell = Path) then cell_path
  else cell_wall.

(** [maze.map((row, y) => row.map((cell, x) => <div className=... />))]:
    the class names of the [div]s, row by row. [map] does not call its
    callback on an empty slot and leaves the slot empty. *)
Definition render (maze : Maze) (playerX playerY : Z)
  : list (list (option ClassName)) :=
  imap (fun y row =>
          imap (fun x cell =>
                  className playerX playerY (Z.of_nat x) (Z.of_nat y) <$> cell)
               row)
       maze.

(* ===================================================================== *)
(** ** Reads after writes *)
(* ===================================================================== *)

Lemma opt_index_read maze x y :
  opt_index (row_at maze y) x = Returned (read maze x y).
Proof. unfold read, opt_index. by destruct (row_at maze y). Qed.

Lemma row_at_Some maze y row :
  row_at maze y = Some row -> 0 <= y /\ (Z.to_nat y < length maze)%nat.
Proof.
  unfold row_at. destruct (Z.ltb_spec y 0); [done|].
  intros Hl%lookup_lt_Some. lia.
Qed.

Lemma elem_at_array_set row x v x' :
  0 <= x ->
  elem_at (array_set row x v) x' = if decide (x' = x) then Some v else elem_at row x'.
Proof.
  intros Hx. unfold elem_at, array_set, Row in *.
  destruct (Z.ltb_spec x 0); [lia|].
  destruct (Z.ltb_spec x' 0).
  { case_decide; [lia|done]. }
  destruct (Nat.ltb_spec (Z.to_nat x) (length row)).
  - case_decide as E.
    + subst. by rewrite list_lookup_insert_eq.
    + rewrite list_lookup_insert_ne; [done|lia].
  - case_decide as E.
    + subst. rewrite lookup_app_r by lia. rewrite lookup_app_r;
        rewrite length_replicate; [|lia].
      by replace (Z.to_nat x - length row - (Z.to_nat x - length row))%nat with O by lia.
    + destruct (decide (Z.to_nat x' < length row)%nat).
      * by rewrite lookup_app_l.
      * rewrite lookup_app_r by lia.
        rewrite (lookup_ge_None_2 row) by lia.
        destruct (decide (Z.to_nat x' - length row < Z.to_nat x - length row)%nat).
        -- rewrite lookup_app_l by (rewrite length_replicate; lia).
           by rewrite lookup_replicate_2.
        -- rewrite lookup_ge_None_2; [done|].
           rewrite length_app, length_replicate. simpl. lia.
Qed.

Lemma read_write maze x y v maze' x' y' :
  write maze x y v = Returned maze' -> 0 <= x ->
  read maze' x' y' = if decide (x' = x /\ y' = y) then Some v else read maze x' y'.
Proof.
  unfold write. destruct (row_at maze y) as [row|] eqn:Hrow; [|done].
  intros [= <-] Hx. pose proof (row_at_Some _ _ _ Hrow) as [Hy Hlt].
  unfold read, row_at, Maze, Row in *. destruct (Z.ltb_spec y 0); [lia|].
  destruct (Z.ltb_spec y' 0).
  { case_decide; [lia|done]. }
  destruct (decide (y' = y)) as [->|Hne].
  - rewrite list_lookup_insert_eq by done. rewrite Hrow.
    rewrite elem_at_array_set by done.
    repeat case_decide; try done; tauto.
  - rewrite list_lookup_insert_ne by lia.
    case_decide; [tauto|done].
Qed.

Lemma write_Returned maze x y v :
  is_Some (row_at maze y) -> exists maze', write maze x y v = Returned maze'.
Proof. intros [row H]. unfold write. rewrite H. eauto. Qed.

Lemma read_Some_row maze x y c : read maze x y = Some c -> is_Some (row_at maze y).
Proof. unfold read. destruct (row_at maze y); [eauto|done]. Qed.

Lemma write_row_at maze x y v maze' y' :
  write maze x y v = Returned maze' -> is_Some (row_at maze y') -> is_Some (row_at maze' y').
Proof.
  unfold write. destruct (row_at maze y) as [row|] eqn:Hrow; [|done].
  intros [= <-]. unfold row_at, Maze, Row in *. destruct (Z.ltb_spec y' 0); [done|].
  rewrite !lookup_lt_is_Some, length_insert. done.
Qed.

Lemma write_row_at_inv maze x y v maze' y' :
  write maze x y v = Returned maze' -> is_Some (row_at maze' y') -> is_Some (row_at maze y').
Proof.
  unfold write. destruct (row_at maze y) as [row|] eqn:Hrow; [|done].
  intros [= <-]. unfold row_at, Maze, Row in *. destruct (Z.ltb_spec y' 0); [done|].
  rewrite !lookup_lt_is_Some, length_insert. done.
Qed.

(* ===================================================================== *)
(** ** The initial grid and the shuffle *)
(* ===================================================================== *)

Lemma read_wall_grid width height x y :
  read (wall_grid width height) x y =
  if decide (inb width height x y) then Some Wall else None.
Proof.
  unfold read, row_at, wall_grid, inb, Maze, Row.
  destruct (Z.ltb_spec y 0).
  { case_decide; [lia|done]. }
  destruct (decide (y < height)).
  - rewrite lookup_replicate_2 by lia. unfold elem_at.
    destruct (Z.ltb_spec x 0).
    { case_decide; [lia|done]. }
    unfold Row.
    destruct (decide (x < width)).
    + rewrite lookup_replicate_2 by lia. simpl. case_decide; [done|lia].
    + rewrite lookup_ge_None_2 by (rewrite length_replicate; lia).
      simpl. case_decide; [lia|done].
  - rewrite lookup_ge_None_2 by (rewrite length_replicate; lia).
    case_decide; [lia|done].
Qed.

Lemma select_Permutation {A} (n k : nat) (arr : list A) :
  length arr = n -> select n k arr ≡ₚ arr.
Proof.
  revert k arr. induction n as [|n IH]; intros k arr Hlen.
  - by destruct arr.
  - simpl. assert (Hi : (k mod length arr < length arr)%nat).
    { apply Nat.mod_upper_bound. lia. }
    apply lookup_lt_is_Some in Hi as [a Ha]. rewrite Ha.
    etrans; [|symmetry; apply (delete_Permutation arr _ a Ha)].
    constructor. apply IH. rewrite length_delete by eauto. lia.
Qed.

Lemma shuffle_Permutation {A} (k : nat) (arr : list A) : shuffle k arr ≡ₚ arr.
Proof. by apply select_Permutation. Qed.

Lemma shuffle_complete {A} (arr arr' : list A) :
  arr ≡ₚ arr' -> exists k, shuffle k arr = arr'.
Proof.
  revert arr. induction arr' as [|a rest IH]; intros arr Hp.
  - apply Permutation_nil_r in Hp as ->. by exists O.
  - assert (Ha : a ∈ arr) by (rewrite Hp; left).
    apply list_elem_of_lookup in Ha as [i Hi].
    pose proof (lookup_lt_Some _ _ _ Hi) as Hlt.
    destruct (IH (delete i arr)) as [k' Hk'].
    { apply (Permutation_cons_inv (a:=a)).
      etrans; [symmetry; apply (delete_Permutation arr i a Hi)|exact Hp]. }
    exists (i + k' * length arr)%nat. unfold shuffle in *.
    destruct (length arr) as [|n] eqn:En; [lia|]. simpl select.
    rewrite En.
    replace ((i + k' * S n) mod S n)%nat with i
      by (rewrite Nat.Div0.mod_add; symmetry; by apply Nat.mod_small).
    rewrite Hi. f_equal.
    replace ((i + k' * S n) / S n)%nat with k'
      by (rewrite Nat.div_add by lia; rewrite Nat.div_small by lia; lia).
    replace (length (delete i arr)) with n in Hk'
      by (rewrite length_delete by eauto; lia).
    done.
Qed.

(* ===================================================================== *)
(** ** Counting cells of the rectangle *)
(* ===================================================================== *)

Lemma elem_of_cells width height x y :
  (x, y) ∈ cells width height <-> inb width height x y.
Proof.
  unfold cells, inb. rewrite list_elem_of_bind. split.
  - intros (y' & Hx & Hy). apply list_elem_of_fmap in Hx as (x' & [= -> ->] & Hx).
    apply elem_of_seqZ in Hx, Hy. lia.
  - intros [Hx Hy]. exists y. split; [|apply elem_of_seqZ; lia].
    apply list_elem_of_fmap. exists x. split; [done|apply elem_of_seqZ; lia].
Qed.

Lemma NoDup_cells width height : NoDup (cells width height).
Proof.
  unfold cells. apply NoDup_bind; [| |apply NoDup_seqZ].
  - intros y1 y2 [x y] _ _ H1 H2.
    apply list_elem_of_fmap in H1 as (? & [= ? ?] & _).
    apply list_elem_of_fmap in H2 as (? & [= ? ?] & _). congruence.
  - intros y _. apply NoDup_fmap_2; [|apply NoDup_seqZ].
    intros ? ? [= ?]. done.
Qed.

Section counting.
Context {A : Type} (P Q : A -> Prop).
Context `{!forall a, Decision (P a), !forall a, Decision (Q a)}.

Lemma filter_agree (l : list A) :
  (forall a, a ∈ l -> (P a <-> Q a)) -> filter P l = filter Q l.
Proof.
  induction l as [|a l IH]; intros Hag; [done|].
  rewrite !filter_cons.
  assert (P a <-> Q a) by (apply Hag; left).
  rewrite IH by (intros; apply Hag; by right).
  repeat case_decide; tauto.
Qed.

Lemma filter_length_gain (l : list A) (c : A) :
  NoDup l -> c ∈ l -> ~ P c -> Q c ->
  (forall a, a ∈ l -> a <> c -> (P a <-> Q a)) ->
  length (filter Q l) = S (length (filter P l)).
Proof.
  intros Hnd Hc HP HQ Hother.
  apply list_elem_of_split in Hc as (l1 & l2 & ->).
  apply NoDup_app in Hnd as (Hnd1 & Hnot & Hnd2).
  apply NoDup_cons in Hnd2 as (Hc2 & _).
  rewrite !filter_app, !filter_cons, !length_app.
  rewrite decide_True by done. rewrite (decide_False (P:=P c)) by done.
  rewrite (filter_agree l1), (filter_agree l2); [simpl; lia| |].
  - intros a Ha. apply Hother; [|by intros ->].
    rewrite elem_of_app. right. by right.
  - intros a Ha. apply Hother; [by rewrite elem_of_app; left|].
    intros ->. apply (Hnot c); [done|left].
Qed.
End counting.

(* ===================================================================== *)
(** ** Passages, reachability and the effect of one direction *)
(* ===================================================================== *)

Lemma row_at_is_Some maze y :
  is_Some (row_at maze y) <-> 0 <= y /\ (Z.to_nat y < length maze)%nat.
Proof.
  unfold row_at. destruct (Z.ltb_spec y 0).
  - split; [by intros [? ?]|lia].
  - rewrite lookup_lt_is_Some. lia.
Qed.

Lemma read_Some_inv maze x y c :
  read maze x y = Some c -> 0 <= x /\ is_Some (row_at maze y).
Proof.
  intros H. split; [|by eapply read_Some_row].
  unfold read, elem_at in H. destruct (row_at maze y); [|done].
  destruct (Z.ltb_spec x 0); [done|lia].
Qed.

Lemma write_rows maze x y v maze' y' :
  write maze x y v = Returned maze' ->
  is_Some (row_at maze y') <-> is_Some (row_at maze' y').
Proof.
  intros H. split; [by eapply write_row_at|by eapply write_row_at_inv].
Qed.

Lemma grows_refl m : grows m m.
Proof. by repeat split. Qed.

Lemma grows_trans m1 m2 m3 : grows m1 m2 -> grows m2 m3 -> grows m1 m3.
Proof.
  intros (P1 & W1 & R1) (P2 & W2 & R2). repeat split; auto.
  - intros. by apply R2, R1.
  - intros. by apply R1, R2.
Qed.

Lemma carved_grows m x y d m' : carved m x y d m' -> grows m m'.
Proof.
  intros [Hr Hrow]. repeat split; try apply Hrow.
  - intros x' y' H. rewrite Hr. by case_decide.
  - intros x' y'. rewrite Hr. by case_decide.
Qed.

Lemma reach_grows m m' a c : grows m m' -> reach m a c -> reach m' a c.
Proof.
  intros (HP & _) H. induction H as [Ha|b c _ IH Hadj Hc].
  - apply reach_here. by apply HP.
  - eapply reach_step; [exact IH|done|by apply HP].
Qed.

Lemma reach_is_path m a c : reach m a c -> is_path m c.
Proof. by destruct 1. Qed.

Lemma in_directions (d : Coord) :
  d ∈ directions <-> d = (2, 0) \/ d = (-2, 0) \/ d = (0, 2) \/ d = (0, -2).
Proof.
  unfold directions. rewrite !elem_of_cons, elem_of_nil. tauto.
Qed.

(** What the callback does for one direction, when the popped cell has a
    row and a non-negative column. *)
Lemma visit_spec x y maze stack d :
  0 <= x -> is_Some (row_at maze y) -> d ∈ directions ->
  (read maze (x + d.1) (y + d.2) <> Some Wall /\
   visit x y (maze, stack) d = Returned (maze, stack)) \/
  (read maze (x + d.1) (y + d.2) = Some Wall /\
   exists maze', visit x y (maze, stack) d
                 = Returned (maze', (x + d.1, y + d.2) :: stack) /\
                 carved maze x y d maze').
Proof.
  intros Hx Hy Hd. destruct d as [dx dy]. unfold visit. simpl.
  rewrite opt_index_read. simpl.
  destruct (read maze (x + dx) (y + dy)) as [[|]|] eqn:Hn; [|by left..].
  right. split; [done|].
  apply read_Some_inv in Hn as Hn'. destruct Hn' as [Hnx Hny].
  destruct (write_Returned maze (x + dx) (y + dy) Path Hny) as [m1 H1].
  rewrite H1. simpl.
  assert (Hmid : is_Some (row_at m1 (y + dy / 2))).
  { apply (write_rows _ _ _ _ _ _ H1).
    apply row_at_is_Some in Hy, Hny. apply row_at_is_Some.
    apply in_directions in Hd as [[= -> ->]|[[= -> ->]|[[= -> ->]|[= -> ->]]]];
      simpl; change (2 / 2) with 1; change (-2 / 2) with (-1);
      change (0 / 2) with 0; lia. }
  destruct (write_Returned m1 (x + dx / 2) (y + dy / 2) Path Hmid) as [m2 H2].
  rewrite H2. simpl. exists m2. split; [done|]. split.
  - intros x' y'. simpl.
    rewrite (read_write _ _ _ _ _ x' y' H2), (read_write _ _ _ _ _ x' y' H1);
      [|lia|].
    + repeat case_decide; try done; tauto.
    + apply in_directions in Hd as [[= -> ->]|[[= -> ->]|[[= -> ->]|[= -> ->]]]];
        simpl; change (2 / 2) with 1; change (-2 / 2) with (-1);
        change (0 / 2) with 0; lia.
  - intros y'. rewrite (write_rows _ _ _ _ _ y' H1). apply (write_rows _ _ _ _ _ y' H2).
Qed.

(* ===================================================================== *)
(** ** One iteration of the loop, direction by direction *)
(* ===================================================================== *)

Lemma forEach_cons x y d ds st :
  forEach x y (d :: ds) st = bind (visit x y st d) (forEach x y ds).
Proof. done. Qed.

Lemma forEach_visited x y dirs m stack :
  0 <= x -> is_Some (row_at m y) -> (forall d, d ∈ dirs -> d ∈ directions) ->
  exists st', forEach x y dirs (m, stack) = Returned st' /\
              visited x y dirs (m, stack) st'.
Proof.
  intros Hx. revert m stack.
  induction dirs as [|d ds IH]; intros m stack Hy Hds.
  - eexists. split; [done|constructor].
  - assert (Hd : d ∈ directions) by (apply Hds; left).
    assert (Hds' : forall d', d' ∈ ds -> d' ∈ directions)
      by (intros; apply Hds; by right).
    rewrite forEach_cons.
    destruct (visit_spec x y m stack d Hx Hy Hd)
      as [[Hn ->]|[Hn (m' & -> & Hc)]]; simpl.
    + destruct (IH m stack Hy Hds') as (st' & E & V).
      exists st'. split; [done|]. by apply visited_skip.
    + destruct (IH m' ((x + d.1, y + d.2) :: stack)) as (st' & E & V);
        [by apply Hc|done|].
      exists st'. split; [done|]. by eapply visited_carve.
Qed.

Section filter_drop.
Context {A : Type} (P Q : A -> Prop).
Context `{!forall a, Decision (P a), !forall a, Decision (Q a)}.

Lemma filter_length_le (l : list A) :
  (forall a, a ∈ l -> Q a -> P a) ->
  (length (filter Q l) <= length (filter P l))%nat.
Proof.
  induction l as [|a l IH]; intros Hsub; [done|].
  rewrite !filter_cons.
  assert (Q a -> P a) by (apply Hsub; left).
  assert (length (filter Q l) <= length (filter P l))%nat
    by (apply IH; intros; apply Hsub; [by right|done]).
  repeat case_decide; simpl; try lia; tauto.
Qed.

Lemma filter_length_drop (l : list A) (c : A) :
  c ∈ l -> P c -> ~ Q c -> (forall a, a ∈ l -> Q a -> P a) ->
  (length (filter Q l) < length (filter P l))%nat.
Proof.
  induction l as [|a l IH]; intros Hc HP HQ Hsub; [by inversion Hc|].
  rewrite !filter_cons.
  assert (Hsub' : forall a', a' ∈ l -> Q a' -> P a')
    by (intros; apply Hsub; [by right|done]).
  pose proof (filter_length_le l Hsub').
  apply elem_of_cons in Hc as [->|Hc].
  - rewrite (decide_True (P:=P a)), (decide_False (P:=Q a)) by done.
    simpl. lia.
  - specialize (IH Hc HP HQ Hsub').
    assert (Q a -> P a) by (apply Hsub; left).
    repeat case_decide; simpl; try lia; tauto.
Qed.
End filter_drop.

Lemma walls_grows width height m m' :
  grows m m' -> (walls width height m' <= walls width height m)%nat.
Proof.
  intros (_ & HW & _). apply filter_length_le. intros [x y] _. apply HW.
Qed.

Lemma walls_carved width height m x y d m' :
  read m (x + d.1) (y + d.2) = Some Wall ->
  inb width height (x + d.1) (y + d.2) ->
  carved m x y d m' ->
  (S (walls width height m') <= walls width height m)%nat.
Proof.
  intros Hn Hin Hc.
  apply (filter_length_drop _ _ _ (x + d.1, y + d.2)).
  - by apply elem_of_cells.
  - done.
  - simpl. destruct Hc as [Hr _]. rewrite Hr, decide_True by tauto. done.
  - intros [x' y'] _. by apply (carved_grows _ _ _ _ _ Hc).
Qed.

(* ===================================================================== *)
(** ** The loop for arbitrary dimensions: no throw, termination *)
(* ===================================================================== *)

Section any_dimensions.
Variables width height : Z.

(** What one run of the callback over [ds] leaves behind. *)
Lemma visited_effect x y ds st st' :
  visited x y ds st st' -> walls_inside width height st.1 ->
  grows st.1 st'.1 /\
  (forall d, d ∈ ds -> read st'.1 (x + d.1) (y + d.2) <> Some Wall) /\
  exists ps,
    st'.2 = ps ++ st.2 /\ NoDup ps /\ (length ps <= length ds)%nat /\
    (length ps + walls width height st'.1 <= walls width height st.1)%nat /\
    (forall c, c ∈ ps ->
       read st.1 c.1 c.2 = Some Wall /\ is_path st'.1 c /\
       exists d, d ∈ ds /\ c = (x + d.1, y + d.2) /\
                 is_path st'.1 (x + d.1 / 2, y + d.2 / 2)) /\
    (forall c, is_path st'.1 c ->
       is_path st.1 c \/ c ∈ ps \/
       exists d, d ∈ ds /\ (x + d.1, y + d.2) ∈ ps /\
                 c = (x + d.1 / 2, y + d.2 / 2)).
Proof.
  induction 1 as [st|d ds m stack st' Hn V IH|d ds m stack m' st' Hn Hc V IH];
    intros Hin; simpl in *.
  - split; [apply grows_refl|]. split; [intros d Hd; by inversion Hd|].
    exists []. split_and!; simpl; [done|apply NoDup_nil_2|lia|lia| |].
    + intros c Hc; by inversion Hc.
    + intros c Hc. by left.
  - destruct (IH Hin) as (G & Hvis & ps & E & ND & Hlen & Hw & Hps & Hnew).
    split; [done|]. split.
    { intros d' [->|Hd']%elem_of_cons; [|by apply Hvis].
      intros Hwall. apply Hn. by apply G. }
    exists ps. split_and!; try done; try lia.
    + intros c Hcps.
      destruct (Hps c Hcps) as (? & ? & d' & Hd' & ? & ?).
      split_and!; try done. exists d'. split; [by right|done].
    + intros c Hc. destruct (Hnew c Hc) as [?|[?|(d' & Hd' & ? & ?)]]; auto.
      right; right. exists d'. split; [by right|done].
  - pose proof (carved_grows _ _ _ _ _ Hc) as G1.
    assert (Hin1 : walls_inside width height m').
    { intros x' y' Hw. apply Hin. by apply G1. }
    destruct (IH Hin1) as (G & Hvis & ps & E & ND & Hlen & Hw & Hps & Hnew).
    assert (Hnp : read m' (x + d.1) (y + d.2) = Some Path).
    { destruct Hc as [Hr _]. rewrite Hr, decide_True by tauto. done. }
    assert (Hmp : read m' (x + d.1 / 2) (y + d.2 / 2) = Some Path).
    { destruct Hc as [Hr _]. rewrite Hr, decide_True by tauto. done. }
    split; [by eapply grows_trans|]. split.
    { intros d' [->|Hd']%elem_of_cons; [|by apply Hvis].
      destruct G as (GP & _). rewrite (GP _ _ Hnp). done. }
    exists (ps ++ [(x + d.1, y + d.2)]).
    pose proof (walls_carved width height _ _ _ _ _ Hn (Hin _ _ Hn) Hc).
    split_and!.
    + by rewrite <- app_assoc.
    + apply NoDup_app. split; [done|]. split; [|apply NoDup_singleton].
      intros c Hcps [->|Hf]%elem_of_cons; [|by inversion Hf].
      destruct (Hps _ Hcps) as (Hwall & _). simpl in *. congruence.
    + rewrite length_app. simpl. lia.
    + rewrite length_app. simpl. lia.
    + intros c [Hcps|[->|Hf]%elem_of_cons]%elem_of_app; [| |by inversion Hf].
      * destruct (Hps c Hcps) as (? & ? & d' & Hd' & ? & ?).
        split_and!; try done.
        -- destruct G1 as (_ & GW & _). by apply GW.
        -- exists d'. split; [by right|done].
      * destruct G as (GP & _). split_and!; [done|by apply GP|].
        exists d. split; [by left|]. split; [done|]. by apply GP.
    + intros c Hcp. destruct (Hnew c Hcp) as [Hold|[?|(d' & Hd' & ? & ?)]].
      * unfold is_path in Hold. destruct Hc as [Hr _]. rewrite Hr in Hold.
        case_decide as Hdec; [|by left].
        destruct c as [cx cy]. simpl in *.
        destruct Hdec as [[-> ->]|[-> ->]].
        -- right; left. apply elem_of_app. right. by left.
        -- right; right. exists d. split; [by left|].
           split; [|done]. apply elem_of_app. right. by left.
      * right; left. apply elem_of_app. by left.
      * right; right. exists d'. split; [by right|].
        split; [|done]. apply elem_of_app. by left.
Qed.

Lemma iteration_spec rnd st x y rest :
  wf width height st -> ls_stack st = (x, y) :: rest ->
  exists st',
    iteration rnd st x y rest = Returned st' /\
    visited x y (ls_dirs st') (ls_maze st, rest) (ls_maze st', ls_stack st') /\
    ls_dirs st' = shuffle (rnd (ls_tick st)) (ls_dirs st) /\
    ls_tick st' = S (ls_tick st) /\
    ls_popped st' = (x, y) :: ls_popped st.
Proof.
  intros [Hst Hd Hw] E. unfold iteration.
  destruct (Hst (x, y)) as [Hx Hy]; [rewrite E; by left|]. simpl in *.
  destruct (forEach_visited x y (shuffle (rnd (ls_tick st)) (ls_dirs st))
              (ls_maze st) rest Hx Hy) as ([m' stack'] & -> & V).
  { intros d Hin. rewrite <- Hd. by rewrite <- (shuffle_Permutation (rnd (ls_tick st))). }
  simpl. eexists. split; [done|]. simpl. done.
Qed.

Lemma iteration_wf rnd st x y rest st' :
  wf width height st -> ls_stack st = (x, y) :: rest ->
  iteration rnd st x y rest = Returned st' ->
  wf width height st' /\ (measure width height st' < measure width height st)%nat /\ grows (ls_maze st) (ls_maze st').
Proof.
  intros Hwf E Hit.
  destruct (iteration_spec rnd st x y rest Hwf E) as (st2 & Hit2 & V & Hd & _).
  rewrite Hit in Hit2. injection Hit2 as <-.
  destruct Hwf as [Hst Hdirs Hw].
  destruct (visited_effect _ _ _ _ _ V Hw)
    as (G & _ & ps & Eps & _ & _ & Hm & Hps & _). simpl in *.
  split; [split|split; [|done]].
  - intros c. rewrite Eps. intros [Hc|Hc]%elem_of_app.
    + destruct (Hps c Hc) as (Hwall & _).
      apply read_Some_inv in Hwall as [? ?]. split; [done|]. by apply G.
    + destruct (Hst c) as [? ?]; [rewrite E; by right|].
      split; [done|]. by apply G.
  - rewrite Hd. by rewrite shuffle_Permutation.
  - intros x' y' Hwall. apply Hw. by apply G.
  - unfold measure. rewrite Eps, E, length_app. simpl. lia.
Qed.

(** A generic induction principle for the loop. *)
Lemma carve_invariant rnd (I : LoopState -> Prop) :
  (forall st x y rest st',
      I st -> ls_stack st = (x, y) :: rest ->
      iteration rnd st x y rest = Returned st' -> I st') ->
  forall fuel st st',
    I st -> carve fuel rnd st = Returned st' -> I st' /\ ls_stack st' = [].
Proof.
  intros Hstep fuel. induction fuel as [|fuel IH]; intros st st' HI; simpl.
  - destruct (ls_stack st) as [|[x y] rest] eqn:E; [|done].
    by intros [= <-].
  - destruct (ls_stack st) as [|[x y] rest] eqn:E; [by intros [= <-]|].
    destruct (iteration rnd st x y rest) as [st1| | |] eqn:Hit; [|done..].
    simpl. apply IH. by eapply Hstep.
Qed.

Lemma steps_invariant rnd (I : LoopState -> Prop) :
  (forall st x y rest st',
      I st -> ls_stack st = (x, y) :: rest ->
      iteration rnd st x y rest = Returned st' -> I st') ->
  forall k st st', I st -> steps k rnd st = Returned st' -> I st'.
Proof.
  intros Hstep k. induction k as [|k IH]; intros st st' HI; simpl.
  - by intros [= <-].
  - destruct (ls_stack st) as [|[x y] rest] eqn:E; [by intros [= <-]|].
    destruct (iteration rnd st x y rest) as [st1| | |] eqn:Hit; [|done..].
    simpl. apply IH. by eapply Hstep.
Qed.

(** The loop ends, without throwing, within [measure] iterations. *)
Lemma carve_terminates rnd fuel st :
  wf width height st -> (measure width height st <= fuel)%nat ->
  exists st', carve fuel rnd st = Returned st'.
Proof.
  revert st. induction fuel as [|fuel IH]; intros st Hwf Hm; simpl.
  - destruct (ls_stack st) as [|[x y] rest] eqn:E; [eauto|].
    unfold measure in Hm. rewrite E in Hm. simpl in Hm. lia.
  - destruct (ls_stack st) as [|[x y] rest] eqn:E; [eauto|].
    destruct (iteration_spec rnd st x y rest Hwf E) as (st1 & Hit & _).
    rewrite Hit. simpl.
    destruct (iteration_wf rnd st x y rest st1 Hwf E Hit) as (Hwf1 & Hlt & _).
    apply IH; [done|lia].
Qed.

(** The number of iterations is the number of cells popped. *)
Lemma carve_pops rnd fuel st st' :
  carve fuel rnd st = Returned st' ->
  (length (ls_popped st') <= length (ls_popped st) + fuel)%nat /\
  exists ps, ls_popped st' = ps ++ ls_popped st.
Proof.
  revert st. induction fuel as [|fuel IH]; intros st; simpl.
  - destruct (ls_stack st) as [|[x y] rest]; [|done].
    intros [= <-]. split; [lia|]. by exists [].
  - destruct (ls_stack st) as [|[x y] rest]. 
    { intros [= <-]. split; [lia|]. by exists []. }
    unfold iteration at 1.
    destruct (forEach x y _ _) as [r| | |]; [|done..]. simpl.
    intros [Hle [ps Hps]]%IH. simpl in *. split; [lia|].
    exists (ps ++ [(x, y)]). by rewrite <- app_assoc.
Qed.

Lemma init_rows y :
  is_Some (row_at (wall_grid width height) y) <-> 0 <= y < height.
Proof.
  rewrite row_at_is_Some. unfold wall_grid.
  rewrite length_replicate. lia.
Qed.

Lemma length_cells :
  length (cells width height) = (Z.to_nat height * Z.to_nat width)%nat.
Proof.
  unfold cells. rewrite <- (length_seqZ 0 height).
  induction (seqZ 0 height) as [|y l IH]; [done|].
  csimpl. rewrite length_app, length_fmap, length_seqZ.
  f_equal. exact IH.
Qed.

Lemma init_maze_spec :
  (array_too_long width height /\ init_maze width height = RangeError) \/
  (~ array_too_long width height /\
   init_maze width height = Returned (wall_grid width height)).
Proof.
  unfold init_maze, array_from, array_too_long, wall_grid, MAX_ARRAY_LENGTH.
  destruct (Z.ltb_spec 4294967295 height); [left; split; [lia|done]|].
  destruct (Z.leb_spec height 0).
  { right. split; [lia|]. by replace (Z.to_nat height) with O by lia. }
  destruct (Z.ltb_spec 4294967295 width); [left; split; [lia|done]|].
  right. split; [lia|].
  destruct (Z.leb_spec width 0); simpl; [|done].
  by replace (Z.to_nat width) with O by lia.
Qed.

(** Entering the loop: a [RangeError] when an array is too long, a
    [TypeError] when row 1 is missing. *)
Lemma enter_loop_spec :
  (array_too_long width height /\ enter_loop width height = RangeError) \/
  (~ array_too_long width height /\ height < 2 /\
   enter_loop width height = TypeError) \/
  (~ array_too_long width height /\ 2 <= height /\
   exists m0, enter_loop width height = Returned (mkLoop m0 [(START_X, START_Y)] directions 0 []) /\
     (forall x y, read m0 x y =
        if decide (x = START_X /\ y = START_Y) then Some Path
        else if decide (inb width height x y) then Some Wall else None) /\
     (forall y, is_Some (row_at m0 y) <-> 0 <= y < height)).
Proof.
  unfold enter_loop.
  destruct init_maze_spec as [[Hlong ->]|[Hshort ->]]; [by left|]. right. simpl.
  destruct (decide (height < 2)) as [Hlt|Hge].
  - left. split; [done|]. split; [done|]. unfold write.
    destruct (row_at (wall_grid width height) START_Y) eqn:E; [|done].
    assert (is_Some (row_at (wall_grid width height) START_Y)) as Hs by eauto.
    apply init_rows in Hs. unfold START_Y in Hs. lia.
  - right. split; [done|]. split; [lia|].
    destruct (write_Returned (wall_grid width height) START_X START_Y Path)
      as [m0 Hm0]; [apply init_rows; unfold START_Y; lia|].
    rewrite Hm0. simpl. exists m0. split; [done|]. split.
    + intros x y. rewrite (read_write _ _ _ _ _ x y Hm0) by done.
      by rewrite read_wall_grid.
    + intros y. rewrite <- (write_rows _ _ _ _ _ y Hm0). apply init_rows.
Qed.

Lemma enter_loop_wf st0 :
  enter_loop width height = Returned st0 ->
  wf width height st0 /\ (measure width height st0 <= S (Z.to_nat height * Z.to_nat width))%nat /\
  (2 <= width -> (measure width height st0 <= Z.to_nat height * Z.to_nat width)%nat).
Proof.
  destruct enter_loop_spec
    as [[_ ->]|[(_ & _ & ->)|(_ & Hh & m0 & -> & Hr & Hrows)]]; [done..|].
  intros [= <-].
  assert (Hw : walls_inside width height m0).
  { intros x y. rewrite Hr. repeat case_decide; done. }
  split; [split; simpl|split].
  - intros c [->|Hc]%elem_of_cons; [|by inversion Hc]. simpl.
    split; [done|]. apply Hrows. unfold START_Y. lia.
  - done.
  - done.
  - unfold measure. simpl. rewrite <- length_cells.
    pose proof (length_filter (fun c : Coord => read m0 c.1 c.2 = Some Wall)
                  (cells width height)). unfold walls. lia.
  - intros Hw2. unfold measure, walls. simpl. rewrite <- length_cells.
    assert (length (filter (fun c : Coord => read m0 c.1 c.2 = Some Wall)
                      (cells width height)) < length (cells width height))%nat;
      [|lia].
    apply (length_filter_lt _ _ (START_X, START_Y)).
    + apply elem_of_cells. unfold inb, START_X, START_Y. lia.
    + simpl. rewrite Hr, decide_True by done. done.
Qed.

(** Whatever the loop started by [generateMaze] returns is well formed and
    has the rows of the initial grid. *)
Lemma carve_rows rnd fuel st0 st :
  enter_loop width height = Returned st0 ->
  carve fuel rnd st0 = Returned st ->
  ls_stack st = [] /\ wf width height st /\ grows (ls_maze st0) (ls_maze st) /\
  (forall y, is_Some (row_at (ls_maze st) y) <-> 0 <= y < height).
Proof.
  intros He Hst. destruct (enter_loop_wf st0 He) as (Hwf & _).
  destruct (carve_invariant rnd
              (fun st => wf width height st /\ grows (ls_maze st0) (ls_maze st))
              ltac:(intros s x y rest s' [W G] E Hit;
                    destruct (iteration_wf rnd s x y rest s' W E Hit)
                      as (W' & _ & G');
                    split; [done|by eapply grows_trans])
              fuel st0 st (conj Hwf (grows_refl _)) Hst) as [[W G] Hs].
  split_and!; try done.
  intros y. destruct G as (_ & _ & GR). rewrite <- GR.
  destruct enter_loop_spec
    as [[_ E]|[(_ & _ & E)|(_ & _ & m0 & E & _ & Hrows)]];
    rewrite E in He; [done..|]. injection He as <-. apply Hrows.
Qed.

(** That loop ends, without throwing, once the budget covers the measure. *)
Lemma carve_from_start rnd fuel st0 :
  enter_loop width height = Returned st0 ->
  (measure width height st0 <= fuel)%nat ->
  exists st, carve fuel rnd st0 = Returned st.
Proof.
  intros He Hm. destruct (enter_loop_wf st0 He) as (Hwf & _).
  apply (carve_terminates rnd fuel st0 Hwf Hm).
Qed.

(** The final write: it throws exactly when row [GOAL_Y] is missing. *)
Lemma goal_write m :
  (forall y, is_Some (row_at m y) <-> 0 <= y < height) ->
  (height <= GOAL_Y /\ write m GOAL_X GOAL_Y Path = TypeError) \/
  (GOAL_Y < height /\ exists g, write m GOAL_X GOAL_Y Path = Returned g /\
     forall x y, read g x y =
       if decide (x = GOAL_X /\ y = GOAL_Y) then Some Path else read m x y).
Proof.
  intros Hrows. destruct (decide (height <= GOAL_Y)) as [Hle|Hgt].
  - left. split; [done|]. unfold write.
    destruct (row_at m GOAL_Y) eqn:E; [|done].
    assert (is_Some (row_at m GOAL_Y)) as Hs%Hrows by eauto. lia.
  - right. split; [lia|].
    destruct (write_Returned m GOAL_X GOAL_Y Path) as [g Hg].
    { apply Hrows. unfold GOAL_Y, MAZE_HEIGHT in *. lia. }
    exists g. split; [done|]. intros x y.
    by rewrite (read_write _ _ _ _ _ x y Hg).
Qed.

(** The outcome of [generateMaze] once the budget covers the loop: a
    [RangeError] when an array is too long, a [TypeError] when row [GOAL_Y]
    (or row 1) is missing, a grid otherwise. *)
Lemma generateMaze_outcome rnd fuel :
  (forall st0, enter_loop width height = Returned st0 ->
               (measure width height st0 <= fuel)%nat) ->
  (array_too_long width height /\
   generateMaze fuel rnd width height = RangeError) \/
  (~ array_too_long width height /\ height <= GOAL_Y /\
   generateMaze fuel rnd width height = TypeError) \/
  (~ array_too_long width height /\ GOAL_Y < height /\
   exists g, generateMaze fuel rnd width height = Returned g).
Proof.
  intros Hfuel. unfold generateMaze.
  destruct enter_loop_spec
    as [[Hlong E]|[(Hshort & Hlt & E)|(Hshort & Hh & m0 & E & _)]];
    rewrite E; simpl.
  { by left. }
  { right; left. split; [done|]. split; [unfold GOAL_Y, MAZE_HEIGHT; lia|done]. }
  right.
  destruct (carve_from_start rnd fuel _ E (Hfuel _ E)) as [st Hst].
  rewrite Hst. simpl.
  destruct (carve_rows rnd fuel _ st E Hst) as (_ & _ & _ & Hrows).
  destruct (goal_write (ls_maze st) Hrows) as [[? ->]|(? & g & -> & _)];
    [left|right]; eauto.
Qed.
End any_dimensions.

(* ===================================================================== *)
(** ** The lattice and the carving graph *)
(* ===================================================================== *)

(** From here on [lia] also decides goals with [mod 2] and [/ 2]. *)
Ltac Zify.zify_post_hook ::= Z.to_euclidean_division_equations.

Section odd_dimensions.
Variables width height : Z.
Hypothesis width_odd : width mod 2 = 1.
Hypothesis height_odd : height mod 2 = 1.
Hypothesis width_ge : 3 <= width.
Hypothesis height_ge : 3 <= height.

Lemma carved_opened m x y d m' :
  d ∈ directions -> carved m x y d m' ->
  exists hx hy, Z.abs hx + Z.abs hy = 1 /\ d = (2 * hx, 2 * hy) /\
                opened m x y hx hy m'.
Proof.
  intros Hd [Hr _].
  apply in_directions in Hd as [-> | [-> | [-> | ->]]]; simpl in Hr;
    [exists 1, 0|exists (-1), 0|exists 0, 1|exists 0, (-1)];
    (split; [done|]; split; [done|]); intros x' y'; rewrite Hr;
    repeat case_decide; try done; exfalso; lia.
Qed.

Local Ltac same_cell H :=
  match goal with
  | |- read ?m ?a ?b = ?v =>
      match type of H with
      | read m ?a' ?b' = v =>
          replace a with a' by lia; replace b with b' by lia; exact H
      end
  end.

Lemma grid_inv_opened m x y hx hy m' :
  grid_inv width height m -> read m x y = Some Path -> x mod 2 = 1 -> y mod 2 = 1 ->
  Z.abs hx + Z.abs hy = 1 ->
  read m (x + 2 * hx) (y + 2 * hy) = Some Wall ->
  opened m x y hx hy m' -> grid_inv width height m'.
Proof.
  intros [Hdom Hwall Hpath Hconn Hmx Hmy Hcount] Hxy Hox Hoy Hh Hn Hr.
  assert (G : forall a b, read m a b = Some Path -> read m' a b = Some Path).
  { intros a b Hp. rewrite Hr. by case_decide. }
  pose proof (Hwall _ _ Hn) as [Hnx Hny].
  pose proof (Hpath _ _ Hxy) as (Hbx & Hby & _).
  assert (Hmid : read m (x + hx) (y + hy) = Some Wall).
  { destruct (Hdom (x + hx) (y + hy)) as [c Hm]; [unfold inb; lia|].
    destruct c; [done|]. exfalso.
    assert (read m (x + 2 * hx) (y + 2 * hy) = Some Path); [|congruence].
    destruct (decide (hy = 0)).
    - destruct (Hmx _ _ Hm) as [H1 H2]; [lia|].
      destruct (decide (hx = 1)); [same_cell H2|same_cell H1].
    - destruct (Hmy _ _ Hm) as [H1 H2]; [lia|].
      destruct (decide (hy = 1)); [same_cell H2|same_cell H1]. }
  assert (Hn' : read m' (x + 2 * hx) (y + 2 * hy) = Some Path).
  { rewrite Hr, decide_True by tauto. done. }
  assert (Hmid' : read m' (x + hx) (y + hy) = Some Path).
  { rewrite Hr, decide_True by tauto. done. }
  split.
  - intros x' y' Hin. rewrite Hr. case_decide; [eauto|by apply Hdom].
  - intros x' y'. rewrite Hr. case_decide; [done|apply Hwall].
  - intros x' y'. rewrite Hr. case_decide as Hd; [intros _; lia|apply Hpath].
  - assert (R0 : reach m' (START_X, START_Y) (x, y)).
    { pose proof (Hconn (x, y) Hxy) as R. clear -R G.
      induction R as [Ha|b c _ IH Hadj Hc].
      - apply reach_here. by apply G.
      - eapply reach_step; [exact IH|done|by apply G]. }
    assert (R1 : reach m' (START_X, START_Y) (x + hx, y + hy)).
    { eapply reach_step; [exact R0| |done]. unfold adjacent. simpl. lia. }
    assert (R2 : reach m' (START_X, START_Y) (x + 2 * hx, y + 2 * hy)).
    { eapply reach_step; [exact R1| |done]. unfold adjacent. simpl. lia. }
    intros [a b] Hp. unfold is_path in Hp. simpl in Hp.
    rewrite Hr in Hp. case_decide as Hd.
    + destruct Hd as [[-> ->]|[-> ->]]; done.
    + pose proof (Hconn (a, b) Hp) as R. clear -R G.
      induction R as [Ha|b' c _ IH Hadj Hc].
      * apply reach_here. by apply G.
      * eapply reach_step; [exact IH|done|by apply G].
  - intros x' y'. rewrite Hr. case_decide as Hd.
    + intros _ Hev. split; rewrite Hr; case_decide; try done.
      * destruct (decide (hx = 1)); [same_cell Hxy|exfalso; lia].
      * destruct (decide (hx = -1)); [same_cell Hxy|exfalso; lia].
    + intros Hp Hev. destruct (Hmx _ _ Hp Hev). split; by apply G.
  - intros x' y'. rewrite Hr. case_decide as Hd.
    + intros _ Hev. split; rewrite Hr; case_decide; try done.
      * destruct (decide (hy = 1)); [same_cell Hxy|exfalso; lia].
      * destruct (decide (hy = -1)); [same_cell Hxy|exfalso; lia].
    + intros Hp Hev. destruct (Hmy _ _ Hp Hev). split; by apply G.
  - assert (E1 : nodes width height m' = S (nodes width height m)).
    { unfold nodes.
      apply (filter_length_gain _ _ _ (x + 2 * hx, y + 2 * hy)).
      - apply NoDup_cells.
      - by apply elem_of_cells.
      - intros [Hp _]. unfold is_path in Hp. simpl in Hp. congruence.
      - split; [done|]. unfold lattice. simpl. lia.
      - intros [a b] _ Hne. unfold is_path, lattice. simpl. rewrite Hr.
        case_decide as Hd; [|tauto].
        destruct Hd as [[-> ->]|[-> ->]]; [done|].
        split; intros [_ [? ?]]; lia. }
    assert (E2 : edges width height m' = S (edges width height m)).
    { unfold edges.
      apply (filter_length_gain _ _ _ (x + hx, y + hy)).
      - apply NoDup_cells.
      - apply elem_of_cells. unfold inb. lia.
      - intros [Hp _]. unfold is_path in Hp. simpl in Hp. congruence.
      - split; [done|]. unfold lattice. simpl. lia.
      - intros [a b] _ Hne. unfold is_path, lattice. simpl. rewrite Hr.
        case_decide as Hd; [|tauto].
        destruct Hd as [[-> ->]|[-> ->]]; [|done].
        split; intros [Hp Hl]; [congruence|exfalso; apply Hl; lia]. }
    lia.
Qed.

Lemma grid_inv_carved m x y d m' :
  grid_inv width height m -> read m x y = Some Path -> lattice (x, y) ->
  d ∈ directions -> read m (x + d.1) (y + d.2) = Some Wall ->
  carved m x y d m' -> grid_inv width height m'.
Proof.
  intros Hg Hxy [Hox Hoy] Hd Hn Hc.
  destruct (carved_opened _ _ _ _ _ Hd Hc) as (hx & hy & Hh & -> & Ho).
  by apply (grid_inv_opened m x y hx hy m').
Qed.

Lemma visited_grid_inv x y ds st st' :
  visited x y ds st st' -> (forall d, d ∈ ds -> d ∈ directions) ->
  read st.1 x y = Some Path -> lattice (x, y) ->
  grid_inv width height st.1 -> grid_inv width height st'.1.
Proof.
  induction 1 as [st|d ds m stack st' Hn V IH|d ds m stack m' st' Hn Hc V IH];
    intros Hds Hxy Hl Hg; simpl in *.
  - done.
  - apply IH; [|done..]. intros; apply Hds; by right.
  - apply IH; [intros; apply Hds; by right| |done|].
    + by apply (carved_grows _ _ _ _ _ Hc).
    + eapply grid_inv_carved; [exact Hg|exact Hxy|done| |exact Hn|exact Hc].
      apply Hds; by left.
Qed.

Lemma iteration_loop_inv rnd st x y rest st' :
  loop_inv width height st -> ls_stack st = (x, y) :: rest ->
  iteration rnd st x y rest = Returned st' -> loop_inv width height st'.
Proof.
  intros [Hwf Hg Hs Hst Hcl Hnd Hpop] E Hit.
  destruct (iteration_wf _ _ rnd st x y rest st' Hwf E Hit) as (Hwf' & _ & _).
  destruct (iteration_spec _ _ rnd st x y rest Hwf E)
    as (st2 & Hit2 & V & Hd & _ & Hpopped).
  rewrite Hit in Hit2. injection Hit2 as <-.
  assert (Hdirs : forall d, d ∈ ls_dirs st' <-> d ∈ directions).
  { intros d. by rewrite (wf_dirs _ _ _ Hwf'). }
  destruct (Hst (x, y)) as [Hxy Hl]; [rewrite E; by left|].
  unfold is_path in Hxy. simpl in Hxy.
  pose proof (visited_grid_inv _ _ _ _ _ V (fun d => proj1 (Hdirs d)) Hxy Hl Hg)
    as Hg'.
  destruct (visited_effect width height _ _ _ _ _ V (wf_walls _ _ _ Hwf))
    as (G & Hvis & ps & Eps & NDps & _ & _ & Hps & Hnew). simpl in *.
  destruct G as (GP & GW & GR).
  split; try done.
  - by apply GP.
  - intros c. rewrite Eps. intros [Hc|Hc]%elem_of_app.
    + destruct (Hps c Hc) as (_ & Hp & d & Hd' & -> & _). split; [done|].
      apply Hdirs, in_directions in Hd'. destruct Hl as [Hl1 Hl2].
      unfold lattice in *. simpl in *.
      destruct Hd' as [-> | [-> | [-> | ->]]]; simpl; lia.
    + destruct (Hst c) as [Hp ?]; [rewrite E; by right|].
      split; [by apply GP|done].
  - intros c Hp Hlc. rewrite Eps.
    destruct (Hnew c Hp) as [Hold|[Hc|(d & Hd' & _ & ->)]].
    + destruct (Hcl c Hold Hlc) as [Hin|Hclosed].
      * rewrite E in Hin. apply elem_of_cons in Hin as [->|Hin].
        -- right. intros d Hd' Hin. simpl in *.
           destruct (gi_dom _ _ _ Hg' _ _ Hin) as [[|] Hv]; [|done].
           exfalso. by apply (Hvis d); [apply Hdirs|].
        -- left. apply elem_of_app. by right.
      * right. intros d Hd' Hin. by apply GP, Hclosed.
    + left. apply elem_of_app. by left.
    + exfalso. apply Hdirs, in_directions in Hd'.
      destruct Hl as [Hl1 Hl2], Hlc as [Hc1 Hc2]. simpl in *.
      destruct Hd' as [-> | [-> | [-> | ->]]]; simpl in *; lia.
  - rewrite Eps, Hpopped, E in *.
    assert (Hperm : (ps ++ rest) ++ (x, y) :: ls_popped st
                    ≡ₚ ps ++ ((x, y) :: rest) ++ ls_popped st).
    { rewrite <- app_assoc. apply Permutation_app_head.
      simpl. by rewrite Permutation_middle. }
    rewrite Hperm. apply NoDup_app. split; [done|]. split; [|done].
    intros c Hc Hin. destruct (Hps c Hc) as (Hwall & _).
    assert (is_path (ls_maze st) c) as Hp; [|unfold is_path in Hp; congruence].
    apply elem_of_app in Hin as [Hin|Hin]; [by apply Hst|by apply Hpop].
  - rewrite Hpopped. intros c [->|Hc]%elem_of_cons.
    + by apply GP.
    + by apply GP, Hpop.
Qed.

(** When the stack is empty the whole lattice has been carved. *)
Lemma lattice_complete st :
  loop_inv width height st -> ls_stack st = [] ->
  forall x y, inb width height x y -> lattice (x, y) ->
              read (ls_maze st) x y = Some Path.
Proof.
  intros [_ Hg Hs _ Hcl _ _] E.
  assert (Hstep : forall x y dx dy,
             read (ls_maze st) x y = Some Path -> lattice (x, y) ->
             (dx, dy) ∈ directions -> inb width height (x + dx) (y + dy) ->
             read (ls_maze st) (x + dx) (y + dy) = Some Path).
  { intros x y dx dy Hp Hl Hd Hin.
    destruct (Hcl (x, y) Hp Hl) as [Hin'|Hc].
    - rewrite E in Hin'. by inversion Hin'.
    - by apply (Hc (dx, dy)). }
  assert (Hall : forall n : nat, forall x y,
             inb width height x y -> lattice (x, y) ->
             x + y <= Z.of_nat n -> read (ls_maze st) x y = Some Path).
  { induction n as [|n IH]; intros x y [Hx Hy] [Hlx Hly] Hsum; simpl in *.
    - lia.
    - destruct (decide (3 <= x)).
      + replace x with ((x - 2) + 2) by lia. replace y with (y + 0) by lia.
        apply Hstep; [|split; simpl; lia|apply in_directions; tauto
                      |unfold inb; lia].
        apply IH; [unfold inb; lia|split; simpl; lia|lia].
      + destruct (decide (3 <= y)).
        * replace y with ((y - 2) + 2) by lia. replace x with (x + 0) by lia.
          apply Hstep; [|split; simpl; lia|apply in_directions; tauto
                        |unfold inb; lia].
          apply IH; [unfold inb; lia|split; simpl; lia|lia].
        * replace x with START_X by (unfold START_X; lia).
          replace y with START_Y by (unfold START_Y; lia). done. }
  intros x y Hin Hl. apply (Hall (Z.to_nat (x + y))); [done..|].
  destruct Hin. lia.
Qed.

Lemma filter_none {A} (P : A -> Prop) `{!forall a, Decision (P a)} (l : list A) :
  (forall a, a ∈ l -> ~ P a) -> filter P l = [].
Proof.
  induction l as [|a l IH]; intros Hn; [done|].
  rewrite filter_cons, decide_False by (apply Hn; left).
  apply IH. intros; apply Hn; by right.
Qed.

Lemma enter_loop_inv st0 :
  enter_loop width height = Returned st0 -> loop_inv width height st0.
Proof.
  intros He. destruct (enter_loop_wf width height st0 He) as (Hwf & _).
  destruct (enter_loop_spec width height)
    as [[_ E]|[(_ & _ & E)|(_ & _ & m0 & E & Hr & Hrows)]];
    rewrite E in He; [done..|].
  injection He as <-.
  assert (Hp : forall x y, read m0 x y = Some Path -> x = START_X /\ y = START_Y).
  { intros x y. rewrite Hr. repeat case_decide; done. }
  assert (Hs : read m0 START_X START_Y = Some Path).
  { rewrite Hr, decide_True by done. done. }
  split; simpl; try done.
  - split.
    + intros x y Hin. rewrite Hr. repeat case_decide; eauto. done.
    + apply Hwf.
    + intros x y [-> ->]%Hp. unfold START_X, START_Y. lia.
    + intros [x y] [Hx Hy]%Hp. simpl in *. subst. by apply reach_here.
    + intros x y [-> ->]%Hp. unfold START_X. lia.
    + intros x y [-> ->]%Hp. unfold START_Y. lia.
    + unfold nodes, edges.
      rewrite (filter_none (fun c => is_path m0 c /\ ~ lattice c)).
      * rewrite (filter_length_gain (fun _ => False) _ _ (START_X, START_Y)).
        -- rewrite (filter_none (fun _ => False)); [done|]. by intros ? ? ?.
        -- apply NoDup_cells.
        -- apply elem_of_cells. unfold inb, START_X, START_Y. lia.
        -- tauto.
        -- split; [done|]. split; done.
        -- intros [x y] _ Hne. split; [done|]. intros [Hpa _].
           apply Hp in Hpa as [? ?]. simpl in *. by subst.
      * intros [x y] _ [Hpa Hl]. apply Hp in Hpa as [? ?]. simpl in *.
        subst. apply Hl. split; done.
  - intros c [->|Hc]%elem_of_cons; [|by inversion Hc]. split; [done|].
    split; done.
  - intros [x y] [Hx Hy]%Hp _. simpl in *. subst. left. by left.
  - apply NoDup_singleton.
  - intros c Hc. by inversion Hc.
Qed.

(** The loop of [generateMaze] keeps the invariant. *)
Lemma carve_loop_inv rnd fuel st0 st :
  enter_loop width height = Returned st0 ->
  carve fuel rnd st0 = Returned st ->
  loop_inv width height st /\ ls_stack st = [].
Proof.
  intros He Hc.
  apply (carve_invariant rnd (loop_inv width height) (iteration_loop_inv rnd)
           fuel st0 st);
    [by apply enter_loop_inv|done].
Qed.

(** What [generateMaze] returns: the grid left by the loop, with the cell
    [(GOAL_X, GOAL_Y)] written last. *)
Lemma generateMaze_Returned rnd fuel g :
  generateMaze fuel rnd width height = Returned g ->
  exists st0 st,
    enter_loop width height = Returned st0 /\
    carve fuel rnd st0 = Returned st /\
    write (ls_maze st) GOAL_X GOAL_Y Path = Returned g /\
    loop_inv width height st /\ ls_stack st = [] /\ GOAL_Y < height /\
    forall x y, read g x y =
      if decide (x = GOAL_X /\ y = GOAL_Y) then Some Path
      else read (ls_maze st) x y.
Proof.
  unfold generateMaze.
  destruct (enter_loop width height) as [st0| | |] eqn:He; [|done..]. simpl.
  destruct (carve fuel rnd st0) as [st| | |] eqn:Hc; [|done..]. simpl.
  intros Hg. exists st0, st.
  destruct (carve_loop_inv rnd fuel st0 st He Hc) as [Hinv Hs].
  destruct (carve_rows width height rnd fuel st0 st He Hc) as (_ & _ & _ & Hrows).
  destruct (goal_write height (ls_maze st) Hrows)
    as [[_ E]|(Hlt & g' & E & Hr)]; rewrite E in Hg; [done|].
  injection Hg as <-. split_and!; done.
Qed.

(** Inside the rectangle the returned grid is the one left by the loop. *)
Lemma goal_write_inside st g :
  loop_inv width height st -> ls_stack st = [] ->
  (forall x y, read g x y =
     if decide (x = GOAL_X /\ y = GOAL_Y) then Some Path
     else read (ls_maze st) x y) ->
  forall x y, inb width height x y -> read g x y = read (ls_maze st) x y.
Proof.
  intros Hinv Hs Hr x y Hin. rewrite Hr. case_decide as Hd; [|done].
  destruct Hd as [-> ->]. symmetry.
  apply (lattice_complete st Hinv Hs); [done|].
  split; done.
Qed.

(** In the returned grid, the cells reached from the start are exactly the
    passages of the rectangle. *)
Lemma reach_final st g :
  loop_inv width height st -> ls_stack st = [] -> GOAL_Y < height ->
  (forall x y, read g x y =
     if decide (x = GOAL_X /\ y = GOAL_Y) then Some Path
     else read (ls_maze st) x y) ->
  forall c, reach g (START_X, START_Y) c <->
            inb width height c.1 c.2 /\ is_path g c.
Proof.
  intros Hinv Hs Hgy Hr c.
  pose proof (goal_write_inside st g Hinv Hs Hr) as Hin.
  pose proof (li_grid _ _ _ Hinv) as Hg.
  split.
  - intros R. split; [|by eapply reach_is_path].
    induction R as [Ha|b c R IH Hadj Hc].
    + unfold inb, START_X, START_Y. simpl. lia.
    + apply reach_is_path in R. unfold is_path in R.
      rewrite (Hin _ _ IH) in R.
      destruct (gi_path _ _ _ Hg _ _ R) as (Hbx & Hby & _).
      unfold is_path in Hc. rewrite Hr in Hc. unfold adjacent in Hadj.
      case_decide as Hd.
      * unfold inb, GOAL_X, GOAL_Y, MAZE_WIDTH, MAZE_HEIGHT in *. lia.
      * destruct (gi_path _ _ _ Hg _ _ Hc) as (? & ? & _). unfold inb. lia.
  - intros [Hc Hp]. unfold is_path in Hp. rewrite (Hin _ _ Hc) in Hp.
    pose proof (gi_conn _ _ _ Hg c Hp) as R. clear -R Hr.
    induction R as [Ha|b c _ IH Hadj Hc].
    + apply reach_here. unfold is_path in *. rewrite Hr. by case_decide.
    + eapply reach_step; [exact IH|done|].
      unfold is_path in *. rewrite Hr. by case_decide.
Qed.
End odd_dimensions.

(* ===================================================================== *)
(** ** The pushes of one iteration *)
(* ===================================================================== *)

Lemma forEach_trace x y ds m stack :
  0 <= x -> is_Some (row_at m y) -> (forall d, d ∈ ds -> d ∈ directions) ->
  exists m' ps,
    forEach x y ds (m, stack) = Returned (m', ps ++ stack) /\
    (length ps <= length ds)%nat /\ grows m m' /\
    forall c, c ∈ ps -> pushed_by x y ds m stack m' c.
Proof.
  intros Hx. revert m stack.
  induction ds as [|d ds IH]; intros m stack Hy Hds.
  { exists m, []. split_and!; [done|done|apply grows_refl|].
    intros c Hc. by inversion Hc. }
  assert (Hd : d ∈ directions) by (apply Hds; left).
  assert (Hds' : forall d', d' ∈ ds -> d' ∈ directions)
    by (intros; apply Hds; by right).
  rewrite forEach_cons.
  destruct (visit_spec x y m stack d Hx Hy Hd)
    as [[Hn Hv]|[Hn (m1 & Hv & Hc)]]; rewrite Hv; simpl.
  - destruct (IH m stack Hy Hds') as (m' & ps & E & Hlen & G & Hps).
    exists m', ps. split_and!; [done|simpl; lia|done|].
    intros c Hc.
    destruct (Hps c Hc)
      as (ds1 & d' & ds2 & ma & sa & mb & -> & -> & Ea & ?).
    exists (d :: ds1), d', ds2, ma, sa, mb. split_and!; try done; try tauto.
    rewrite forEach_cons, Hv. done.
  - pose proof (carved_grows _ _ _ _ _ Hc) as G1.
    destruct (IH m1 ((x + d.1, y + d.2) :: stack)) as (m' & ps & E & Hlen & G & Hps);
      [by apply G1|done|].
    exists m', (ps ++ [(x + d.1, y + d.2)]).
    destruct Hc as [Hr _].
    assert (Hn1 : read m1 (x + d.1) (y + d.2) = Some Path).
    { rewrite Hr, decide_True by tauto. done. }
    assert (Hm1 : read m1 (x + d.1 / 2) (y + d.2 / 2) = Some Path).
    { rewrite Hr, decide_True by tauto. done. }
    split_and!.
    + by rewrite <- app_assoc.
    + rewrite length_app. simpl. lia.
    + by eapply grows_trans.
    + intros c [Hcps|[->|Hf]%elem_of_cons]%elem_of_app; [| |by inversion Hf].
      * destruct (Hps c Hcps)
          as (ds1 & d' & ds2 & ma & sa & mb & -> & -> & Ea & ?).
        exists (d :: ds1), d', ds2, ma, sa, mb. split_and!; try done; try tauto.
        rewrite forEach_cons, Hv. done.
      * exists [], d, ds, m, stack, m1. destruct G as (GP & _).
        split_and!; try done; by apply GP.
Qed.

(* ===================================================================== *)
(** ** Properties of the generated grids *)
(* ===================================================================== *)

Lemma sample_maze_generated :
  generateMaze 441 sample_rnd MAZE_WIDTH MAZE_HEIGHT = Returned sample_maze.
Proof. vm_compute. reflexivity. Qed.

Lemma filter_split_length {A} (P L : A -> Prop)
    `{!forall a, Decision (P a), !forall a, Decision (L a)} (l : list A) :
  length (filter P l) =
  (length (filter (fun a => P a /\ L a) l) +
   length (filter (fun a => P a /\ ~ L a) l))%nat.
Proof.
  induction l as [|a l IH]; [done|].
  rewrite !filter_cons. repeat case_decide; simpl; try lia; tauto.
Qed.

(** C3. In every grid returned by [generateMaze] for odd [width] and
    [height] of at least 3, every cell of row 0, row [height - 1], column 0
    and column [width - 1] is a wall. *)
Theorem border_is_wall (width height : Z) (rnd : nat -> nat) (fuel : nat)
    (g : Maze) :
  width mod 2 = 1 -> height mod 2 = 1 -> 3 <= width -> 3 <= height ->
  generateMaze fuel rnd width height = Returned g ->
  forall x y, inb width height x y ->
    x = 0 \/ x = width - 1 \/ y = 0 \/ y = height - 1 ->
    read g x y = Some Wall.
Proof.
  intros Hw Hh Hw3 Hh3 Hg x y Hin Hb.
  destruct (generateMaze_Returned width height Hw Hh Hw3 Hh3 rnd fuel g Hg)
    as (st0 & st & _ & _ & _ & Hinv & Hs & _ & Hr).
  rewrite (goal_write_inside width height st g Hinv Hs Hr x y Hin).
  pose proof (li_grid _ _ _ Hinv) as Hgi.
  destruct (gi_dom _ _ _ Hgi x y Hin) as [[|] Hc]; [done|].
  apply (gi_path _ _ _ Hgi) in Hc. lia.
Qed.

Lemma border_is_wall_witness :
  read sample_maze 0 7 = Some Wall /\ read sample_maze 20 20 = Some Wall.
Proof.
  split.
  - apply (border_is_wall MAZE_WIDTH MAZE_HEIGHT sample_rnd 441 sample_maze);
      [reflexivity|reflexivity|unfold MAZE_WIDTH; lia|unfold MAZE_HEIGHT; lia
      |exact sample_maze_generated|unfold inb, MAZE_WIDTH, MAZE_HEIGHT; lia|lia].
  - apply (border_is_wall MAZE_WIDTH MAZE_HEIGHT sample_rnd 441 sample_maze);
      [reflexivity|reflexivity|unfold MAZE_WIDTH; lia|unfold MAZE_HEIGHT; lia
      |exact sample_maze_generated|unfold inb, MAZE_WIDTH, MAZE_HEIGHT; lia
      |unfold MAZE_WIDTH; lia].
Defined.

(** C4. In every grid returned by [generateMaze] for odd [width] and
    [height] of at least 3, the start cell [grid[1][1]] and the goal cell
    [grid[height-2][width-2]] are passages. *)
Theorem start_and_goal_are_path (width height : Z) (rnd : nat -> nat)
    (fuel : nat) (g : Maze) :
  width mod 2 = 1 -> height mod 2 = 1 -> 3 <= width -> 3 <= height ->
  generateMaze fuel rnd width height = Returned g ->
  read g START_X START_Y = Some Path /\
  read g (width - 2) (height - 2) = Some Path.
Proof.
  intros Hw Hh Hw3 Hh3 Hg.
  destruct (generateMaze_Returned width height Hw Hh Hw3 Hh3 rnd fuel g Hg)
    as (st0 & st & _ & _ & _ & Hinv & Hs & _ & Hr).
  pose proof (goal_write_inside width height st g Hinv Hs Hr) as Hin.
  split.
  - rewrite Hin by (unfold inb, START_X, START_Y; lia). apply Hinv.
  - rewrite Hin by (unfold inb; lia).
    apply (lattice_complete width height st Hinv Hs);
      [unfold inb; lia|split; simpl; lia].
Qed.

Lemma start_and_goal_are_path_witness :
  read sample_maze START_X START_Y = Some Path /\
  read sample_maze (MAZE_WIDTH - 2) (MAZE_HEIGHT - 2) = Some Path.
Proof.
  apply (start_and_goal_are_path MAZE_WIDTH MAZE_HEIGHT sample_rnd 441 sample_maze);
    [reflexivity|reflexivity|unfold MAZE_WIDTH; lia|unfold MAZE_HEIGHT; lia
    |exact sample_maze_generated].
Defined.

(** X14. Inside the rectangle the carving graph is a tree. In every grid
    returned by [generateMaze] for odd [width] and [height] of at least 3,
    the graph whose nodes are the lattice passages of the rectangle and
    whose edges are its other passages, each lying between two nodes, has
    one edge less than it has nodes, and the cells reached from the start
    are exactly the passages of the rectangle, [nodes + edges] of them. *)
Theorem carving_graph_is_tree (width height : Z) (rnd : nat -> nat)
    (fuel : nat) (g : Maze) :
  width mod 2 = 1 -> height mod 2 = 1 -> 3 <= width -> 3 <= height ->
  generateMaze fuel rnd width height = Returned g ->
  (edges width height g = nodes width height g - 1)%nat /\
  (1 <= nodes width height g)%nat /\
  (forall x y, inb width height x y -> read g x y = Some Path ->
     ~ lattice (x, y) ->
     (x mod 2 = 0 /\ y mod 2 = 1 /\
      read g (x - 1) y = Some Path /\ read g (x + 1) y = Some Path) \/
     (x mod 2 = 1 /\ y mod 2 = 0 /\
      read g x (y - 1) = Some Path /\ read g x (y + 1) = Some Path)) /\
  (forall c, reach g (START_X, START_Y) c <-> c ∈ carved_cells width height g) /\
  NoDup (carved_cells width height g) /\
  length (carved_cells width height g)
  = (nodes width height g + edges width height g)%nat.
Proof.
  intros Hw Hh Hw3 Hh3 Hg.
  destruct (generateMaze_Returned width height Hw Hh Hw3 Hh3 rnd fuel g Hg)
    as (st0 & st & _ & _ & _ & Hinv & Hs & Hgy & Hr).
  pose proof (goal_write_inside width height st g Hinv Hs Hr) as Hin.
  pose proof (li_grid _ _ _ Hinv) as Hgi.
  assert (G : forall a b, read (ls_maze st) a b = Some Path -> read g a b = Some Path).
  { intros a b Hp. rewrite Hr. by case_decide. }
  assert (En : nodes width height g = nodes width height (ls_maze st)).
  { unfold nodes. f_equal. apply filter_agree. intros [a b] Hc%elem_of_cells.
    unfold is_path. simpl. by rewrite Hin. }
  assert (Ee : edges width height g = edges width height (ls_maze st)).
  { unfold edges. f_equal. apply filter_agree. intros [a b] Hc%elem_of_cells.
    unfold is_path. simpl. by rewrite Hin. }
  pose proof (gi_count _ _ _ Hgi) as Hcount.
  split_and!.
  - lia.
  - lia.
  - intros x y Hc Hp Hnl. rewrite (Hin _ _ Hc) in Hp.
    destruct (gi_path _ _ _ Hgi _ _ Hp) as (_ & _ & Hpar).
    unfold lattice in Hnl. simpl in Hnl.
    destruct (decide (x mod 2 = 0)) as [Hx|Hx].
    + left. destruct (gi_mid_x _ _ _ Hgi _ _ Hp Hx). split_and!; auto. lia.
    + right. assert (Hy : y mod 2 = 0) by lia.
      destruct (gi_mid_y _ _ _ Hgi _ _ Hp Hy). split_and!; auto. lia.
  - intros [a b]. unfold carved_cells.
    rewrite list_elem_of_filter, elem_of_cells.
    rewrite (reach_final width height Hw3 Hh3 st g Hinv Hs Hgy Hr). simpl. tauto.
  - apply NoDup_filter, NoDup_cells.
  - unfold carved_cells, nodes, edges. apply (filter_split_length _ lattice).
Qed.

Lemma carving_graph_is_tree_witness :
  (edges MAZE_WIDTH MAZE_HEIGHT sample_maze
   = nodes MAZE_WIDTH MAZE_HEIGHT sample_maze - 1)%nat /\
  reach sample_maze (START_X, START_Y) (GOAL_X, GOAL_Y).
Proof.
  destruct (carving_graph_is_tree MAZE_WIDTH MAZE_HEIGHT sample_rnd 441 sample_maze)
    as (He & _ & _ & Hreach & _);
    [reflexivity|reflexivity|unfold MAZE_WIDTH; lia|unfold MAZE_HEIGHT; lia
    |exact sample_maze_generated|].
  split; [exact He|]. apply Hreach. vm_compute.
  repeat first [by apply list_elem_of_here | apply list_elem_of_further].
Defined.

(** The loop of [generateMaze 5 21] ends within 105 iterations. *)
Lemma carve_5x21 (rnd : nat -> nat) :
  exists st0 st g,
    enter_loop 5 21 = Returned st0 /\ carve 105 rnd st0 = Returned st /\
    write (ls_maze st) GOAL_X GOAL_Y Path = Returned g /\
    generateMaze 105 rnd 5 21 = Returned g /\
    loop_inv 5 21 st /\ ls_stack st = [] /\
    forall x y, read g x y =
      if decide (x = GOAL_X /\ y = GOAL_Y) then Some Path
      else read (ls_maze st) x y.
Proof.
  destruct (generateMaze_outcome 5 21 rnd 105)
    as [[Hlong _]|[(_ & Hle & _)|(_ & _ & g & Hg)]].
  { intros st0 He. destruct (enter_loop_wf 5 21 st0 He) as (_ & _ & Hm).
    specialize (Hm ltac:(lia)). simpl in Hm. lia. }
  { unfold array_too_long, MAX_ARRAY_LENGTH in Hlong. lia. }
  { unfold GOAL_Y, MAZE_HEIGHT in Hle. lia. }
  destruct (generateMaze_Returned 5 21 eq_refl eq_refl ltac:(lia) ltac:(lia)
              rnd 105 g Hg) as (st0 & st & He & Hc & Hw & Hinv & Hs & _ & Hr).
  exists st0, st, g. split_and!; done.
Qed.

(** C1, at the dimensions 5 x 21. Whatever the random draws, the grid
    returned by [generateMaze(5, 21)] holds a passage at
    [(GOAL_X, GOAL_Y) = (19, 19)] that is not reached from the start cell:
    the passages are not one connected component. *)
Theorem isolated_goal_5x21 (rnd : nat -> nat) :
  exists g, generateMaze 105 rnd 5 21 = Returned g /\
            is_path g (GOAL_X, GOAL_Y) /\
            ~ reach g (START_X, START_Y) (GOAL_X, GOAL_Y).
Proof.
  destruct (carve_5x21 rnd) as (st0 & st & g & _ & _ & _ & Hg & Hinv & Hs & Hr).
  exists g. split_and!; [done| |].
  - unfold is_path. simpl. rewrite Hr, decide_True by done. done.
  - intros R.
    apply (reach_final 5 21 ltac:(lia) ltac:(lia) st g Hinv Hs) in R;
      [|unfold GOAL_Y, MAZE_HEIGHT; lia|done].
    destruct R as [[Hx _] _]. simpl in Hx. unfold GOAL_X, MAZE_WIDTH in Hx. lia.
Qed.

(** C10, at the dimensions 5 x 21. When the stack of [generateMaze(5, 21)]
    empties, the whole lattice of the 5 x 21 rectangle is carved; the write
    after the loop still changes the grid: the cell [(GOAL_X, GOAL_Y)] was
    [undefined] and becomes a passage none of whose neighbours is one. *)
Theorem goal_write_changes_grid_5x21 (rnd : nat -> nat) :
  exists st0 st g,
    enter_loop 5 21 = Returned st0 /\ carve 105 rnd st0 = Returned st /\
    ls_stack st = [] /\
    (forall x y, inb 5 21 x y -> lattice (x, y) ->
                 read (ls_maze st) x y = Some Path) /\
    write (ls_maze st) GOAL_X GOAL_Y Path = Returned g /\
    generateMaze 105 rnd 5 21 = Returned g /\
    read (ls_maze st) GOAL_X GOAL_Y = None /\
    read g GOAL_X GOAL_Y = Some Path /\
    forall c, adjacent (GOAL_X, GOAL_Y) c -> ~ is_path g c.
Proof.
  destruct (carve_5x21 rnd) as (st0 & st & g & He & Hc & Hw & Hg & Hinv & Hs & Hr).
  pose proof (li_grid _ _ _ Hinv) as Hgi.
  exists st0, st, g.
  split; [done|]. split; [done|]. split; [done|].
  split; [by apply lattice_complete|].
  split; [done|]. split; [done|]. split; [|split].
  - destruct (read (ls_maze st) GOAL_X GOAL_Y) as [[|]|] eqn:E; [| |done].
    + apply (gi_wall _ _ _ Hgi) in E as [Hx _].
      unfold GOAL_X, MAZE_WIDTH in Hx. lia.
    + apply (gi_path _ _ _ Hgi) in E as (Hx & _).
      unfold GOAL_X, MAZE_WIDTH in Hx. lia.
  - rewrite Hr, decide_True by done. done.
  - intros [a b] Hadj Hp. unfold adjacent, is_path in *. simpl in *.
    rewrite Hr in Hp. case_decide as Hd.
    + destruct Hd as [-> ->]. lia.
    + apply (gi_path _ _ _ Hgi) in Hp as (Hx & Hy & _).
      unfold GOAL_X, GOAL_Y, MAZE_WIDTH, MAZE_HEIGHT in *. lia.
Qed.

(** C7. For odd [width] and [height] of at least 3, [generateMaze] ends,
    whatever the random draws. Either a dimension is not an array length
    and [Array.from] throws a [RangeError] before the loop, or the carving
    loop ends within [width * height] iterations. At every moment of the
    run the cells on the stack and the cells popped so far are pairwise
    distinct passages: a cell is pushed when it turns from wall into
    passage, stays a passage, and is never pushed again. At the end the
    stack is empty and the popped cells, at most [width * height], are all
    the cells ever pushed. *)
Theorem carve_terminates_pushed_once (width height : Z) (rnd : nat -> nat) :
  width mod 2 = 1 -> height mod 2 = 1 -> 3 <= width -> 3 <= height ->
  (array_too_long width height /\
   generateMaze (Z.to_nat (width * height)) rnd width height = RangeError) \/
  (~ array_too_long width height /\
   exists st0 st,
    enter_loop width height = Returned st0 /\
    carve (Z.to_nat (width * height)) rnd st0 = Returned st /\
    ls_stack st = [] /\
    NoDup (ls_popped st) /\
    (length (ls_popped st) <= Z.to_nat (width * height))%nat /\
    (forall k st', steps k rnd st0 = Returned st' ->
       NoDup (ls_stack st' ++ ls_popped st') /\
       forall c, c ∈ ls_stack st' ++ ls_popped st' -> is_path (ls_maze st') c) /\
    generateMaze (Z.to_nat (width * height)) rnd width height <> OutOfFuel).
Proof.
  intros Hw Hh Hw3 Hh3.
  assert (Hfuel : forall st0, enter_loop width height = Returned st0 ->
            (measure width height st0 <= Z.to_nat (width * height))%nat).
  { intros st0 He. destruct (enter_loop_wf width height st0 He) as (_ & _ & Hm).
    specialize (Hm ltac:(lia)). rewrite Z2Nat.inj_mul by lia. lia. }
  destruct (enter_loop_spec width height)
    as [[Hlong He]|[(_ & Hlt & _)|(Hshort & _ & m0 & He & _)]]; [|lia|].
  { left. split; [done|]. unfold generateMaze. by rewrite He. }
  right. split; [done|].
  destruct (carve_from_start width height rnd _ _ He (Hfuel _ He)) as [st Hst].
  destruct (carve_loop_inv width height Hw Hh Hw3 Hh3 rnd _ _ _ He Hst)
    as [Hinv Hs].
  eexists _, st. split; [exact He|]. split; [exact Hst|]. split; [done|].
  pose proof (li_nodup _ _ _ Hinv) as Hnd. rewrite Hs in Hnd. simpl in Hnd.
  split; [done|]. split.
  { destruct (carve_pops rnd _ _ _ Hst) as [Hle _]. simpl in Hle. lia. }
  split.
  - intros k st' Hk.
    assert (Hinv' : loop_inv width height st').
    { apply (steps_invariant rnd (loop_inv width height)) with k
        (mkLoop m0 [(START_X, START_Y)] directions 0 []); [|by eapply enter_loop_inv|done].
      intros. by eapply iteration_loop_inv. }
    split; [apply Hinv'|].
    intros c [Hc|Hc]%elem_of_app; [by apply (li_stack _ _ _ Hinv')|].
    by apply (li_popped _ _ _ Hinv').
  - destruct (generateMaze_outcome width height rnd _ Hfuel)
      as [[_ ->]|[(_ & _ & ->)|(_ & _ & g & ->)]]; done.
Qed.

Lemma carve_terminates_pushed_once_witness :
  exists st0 st,
    enter_loop MAZE_WIDTH MAZE_HEIGHT = Returned st0 /\
    carve (Z.to_nat (MAZE_WIDTH * MAZE_HEIGHT)) sample_rnd st0 = Returned st /\
    ls_stack st = [] /\
    NoDup (ls_popped st) /\
    (length (ls_popped st) <= Z.to_nat (MAZE_WIDTH * MAZE_HEIGHT))%nat /\
    (forall k st', steps k sample_rnd st0 = Returned st' ->
       NoDup (ls_stack st' ++ ls_popped st') /\
       forall c, c ∈ ls_stack st' ++ ls_popped st' -> is_path (ls_maze st') c) /\
    generateMaze (Z.to_nat (MAZE_WIDTH * MAZE_HEIGHT)) sample_rnd
      MAZE_WIDTH MAZE_HEIGHT <> OutOfFuel.
Proof.
  destruct (carve_terminates_pushed_once MAZE_WIDTH MAZE_HEIGHT sample_rnd)
    as [[Hlong _]|[_ H]];
    [reflexivity|reflexivity|unfold MAZE_WIDTH; lia|unfold MAZE_HEIGHT; lia
    | |exact H].
  exfalso. unfold array_too_long, MAX_ARRAY_LENGTH, MAZE_WIDTH, MAZE_HEIGHT in Hlong.
  lia.
Defined.

(** C8. One iteration of the loop, on a state whose popped cell [(x, y)]
    has a row and a non-negative column: the new stack is the old one
    without the popped cell, with at most four cells pushed on top; the
    popped cell is not among them; each pushed cell was a wall when its
    direction was evaluated, and the callback for that direction set it and
    the cell in between to passage before pushing it. *)
Theorem iteration_pushes (rnd : nat -> nat) (st : LoopState) (x y : Z)
    (rest : list Coord) :
  ls_stack st = (x, y) :: rest ->
  0 <= x -> is_Some (row_at (ls_maze st) y) -> ls_dirs st ≡ₚ directions ->
  exists st' ps,
    iteration rnd st x y rest = Returned st' /\
    ls_stack st' = ps ++ rest /\
    (length ps <= 4)%nat /\
    ((x, y) ∉ ps) /\
    forall c, c ∈ ps ->
      pushed_by x y (ls_dirs st') (ls_maze st) rest (ls_maze st') c.
Proof.
  intros E Hx Hy Hd. unfold iteration.
  set (dirs := shuffle (rnd (ls_tick st)) (ls_dirs st)).
  assert (Hperm : dirs ≡ₚ directions).
  { unfold dirs. by rewrite shuffle_Permutation. }
  destruct (forEach_trace x y dirs (ls_maze st) rest Hx Hy)
    as (m' & ps & -> & Hlen & _ & Hps).
  { intros d Hin. by rewrite <- Hperm. }
  simpl. eexists _, ps. split; [done|]. simpl. split_and!; [done| | |done].
  - apply Permutation_length in Hperm. simpl in Hperm. lia.
  - intros Hin. destruct (Hps _ Hin) as (ds1 & d & ds2 & _ & _ & _ & Hds & Hc & _).
    assert (d ∈ directions) as Hdd.
    { rewrite <- Hperm, Hds. apply elem_of_app. right. by left. }
    apply in_directions in Hdd. injection Hc as Hc1 Hc2.
    destruct Hdd as [-> | [-> | [-> | ->]]]; simpl in *; lia.
Qed.

Lemma iteration_pushes_witness :
  exists st' ps,
    iteration sample_rnd
      (mkLoop (<[1%nat := [Some Wall; Some Path; Some Wall; Some Wall; Some Wall]]>
                 (wall_grid 5 5))
              [(1, 1)] directions 0 []) 1 1 [] = Returned st' /\
    ls_stack st' = ps ++ [] /\
    (length ps <= 4)%nat /\
    ((1, 1) ∉ ps) /\
    forall c, c ∈ ps ->
      pushed_by 1 1 (ls_dirs st')
        (<[1%nat := [Some Wall; Some Path; Some Wall; Some Wall; Some Wall]]>
           (wall_grid 5 5)) [] (ls_maze st') c.
Proof.
  apply (iteration_pushes sample_rnd
           (mkLoop (<[1%nat := [Some Wall; Some Path; Some Wall; Some Wall; Some Wall]]>
                      (wall_grid 5 5))
                   [(1, 1)] directions 0 []) 1 1 []);
    [reflexivity|lia|simpl; eauto|reflexivity].
Defined.

(* ===================================================================== *)
(** ** The guard and the movement *)
(* ===================================================================== *)

(** C5. For every grid and every candidate [(x, y)], the guard
    [maze[y]?.[x] === 1] evaluates without throwing, and is true exactly
    when [(x, y)] is inside the grid and the cell there is a passage; it is
    false for every coordinate outside the grid, negative ones included. *)
Theorem canMoveTo_correct (maze : Maze) (x y : Z) :
  exists b, canMoveTo maze x y = Returned b /\
            (b = true <-> in_bounds maze x y /\ cell_is_path maze x y) /\
            (~ in_bounds maze x y -> b = false).
Proof.
  unfold canMoveTo. rewrite opt_index_read. simpl.
  eexists. split; [done|].
  assert (Hiff : read maze x y = Some Path
                 <-> in_bounds maze x y /\ cell_is_path maze x y).
  { unfold read, row_at, elem_at, in_bounds, cell_is_path, Maze, Row in *.
    destruct (Z.ltb_spec y 0).
    { split; [done|]. intros [[? _] _]. lia. }
    destruct (maze !! Z.to_nat y) as [row|] eqn:Er.
    2:{ split; [done|]. by intros [_ (? & ? & _)]. }
    destruct (Z.ltb_spec x 0).
    { split; [done|]. intros [(_ & ? & _) _]. lia. }
    destruct (row !! Z.to_nat x) as [c|] eqn:Ec; simpl.
    - split.
      + intros ->. split; [|by exists row].
        split_and!; [done..|]. exists row. split; [done|].
        by eapply lookup_lt_Some.
      + intros [_ (row' & [= <-] & Hc)]. congruence.
    - split; [done|]. intros [_ (row' & [= <-] & Hc)]. congruence. }
  split.
  - rewrite bool_decide_eq_true. done.
  - intros Hout. apply bool_decide_eq_false. tauto.
Qed.

Lemma handleKeyDown_spec (maze : Maze) (pos : Coord) (k : Key) :
  (candidate pos k = pos \/ adjacent pos (candidate pos k)) /\
  exists b,
    canMoveTo maze (candidate pos k).1 (candidate pos k).2 = Returned b /\
    (b = true <-> is_path maze (candidate pos k)) /\
    handleKeyDown maze pos k = Returned (if b then candidate pos k else pos).
Proof.
  split.
  - destruct pos as [px py], k; unfold adjacent; simpl;
      first [by left | right; lia].
  - unfold handleKeyDown. destruct (candidate pos k) as [nx ny]. simpl.
    unfold canMoveTo. rewrite opt_index_read. simpl.
    eexists. split; [done|]. split; [apply bool_decide_eq_true|].
    by destruct (bool_decide _).
Qed.

Lemma play_stays_reachable maze a keys pos :
  reach maze a pos ->
  exists pos', play maze pos keys = Returned pos' /\ reach maze a pos'.
Proof.
  revert pos. induction keys as [|k keys IH]; intros pos R; simpl; [eauto|].
  destruct (handleKeyDown_spec maze pos k) as (Hc & b & _ & Hb & ->). simpl.
  apply IH. destruct b; [|done].
  destruct Hc as [->|Hadj]; [done|].
  eapply reach_step; [exact R|done|by apply Hb].
Qed.

(** C9. An arrow key looks at the cell one step away in its direction
    (up: [y - 1], down: [y + 1], left: [x - 1], right: [x + 1]): when the
    guard approves that cell the player's position becomes that cell, and
    when the guard rejects it the position stays as it is; any other key
    leaves the position as it is. Hence on a grid returned by
    [generateMaze] for odd [width] and [height] of at least 3, a player that
    starts at (1, 1) is, after any sequence of keys, on a passage inside the
    rectangle. *)
Theorem player_stays_on_path (width height : Z) (rnd : nat -> nat)
    (fuel : nat) (g : Maze) :
  width mod 2 = 1 -> height mod 2 = 1 -> 3 <= width -> 3 <= height ->
  generateMaze fuel rnd width height = Returned g ->
  (forall maze x y,
     (exists b, canMoveTo maze x (y - 1) = Returned b /\
                handleKeyDown maze (x, y) ArrowUp
                = Returned (if b then (x, y - 1) else (x, y))) /\
     (exists b, canMoveTo maze x (y + 1) = Returned b /\
                handleKeyDown maze (x, y) ArrowDown
                = Returned (if b then (x, y + 1) else (x, y))) /\
     (exists b, canMoveTo maze (x - 1) y = Returned b /\
                handleKeyDown maze (x, y) ArrowLeft
                = Returned (if b then (x - 1, y) else (x, y))) /\
     (exists b, canMoveTo maze (x + 1) y = Returned b /\
                handleKeyDown maze (x, y) ArrowRight
                = Returned (if b then (x + 1, y) else (x, y))) /\
     handleKeyDown maze (x, y) OtherKey = Returned (x, y)) /\
  (forall maze pos k,
     (canMoveTo maze (candidate pos k).1 (candidate pos k).2 = Returned true ->
      handleKeyDown maze pos k = Returned (candidate pos k)) /\
     (canMoveTo maze (candidate pos k).1 (candidate pos k).2 = Returned false ->
      handleKeyDown maze pos k = Returned pos) /\
     (candidate pos k = pos \/ adjacent pos (candidate pos k))) /\
  forall keys, exists pos,
    play g (START_X, START_Y) keys = Returned pos /\
    read g pos.1 pos.2 = Some Path /\ inb width height pos.1 pos.2.
Proof.
  intros Hw Hh Hw3 Hh3 Hg. split; [|split].
  - intros maze x y.
    assert (Hkey : forall k nx ny, candidate (x, y) k = (nx, ny) ->
              exists b, canMoveTo maze nx ny = Returned b /\
                        handleKeyDown maze (x, y) k
                        = Returned (if b then (nx, ny) else (x, y))).
    { intros k nx ny Hc.
      destruct (handleKeyDown_spec maze (x, y) k) as (_ & b & Hb & _ & Hk).
      rewrite Hc in *. simpl in Hb. by exists b. }
    split_and!; try (by apply Hkey).
    destruct (Hkey OtherKey x y eq_refl) as (b & _ & ->). by destruct b.
  - intros maze pos k.
    destruct (handleKeyDown_spec maze pos k) as (Hc & b & Hb & _ & Hk).
    rewrite Hb, Hk. split_and!; [by intros [= ->]|by intros [= ->]|done].
  - destruct (generateMaze_Returned width height Hw Hh Hw3 Hh3 rnd fuel g Hg)
      as (st0 & st & _ & _ & _ & Hinv & Hs & Hgy & Hr).
    pose proof (reach_final width height Hw3 Hh3 st g Hinv Hs Hgy Hr) as Hreach.
    intros keys.
    destruct (play_stays_reachable g (START_X, START_Y) keys (START_X, START_Y))
      as (pos & Hp & R).
    { apply Hreach. split; [unfold inb, START_X, START_Y; simpl; lia|].
      unfold is_path. simpl. rewrite Hr. case_decide; [done|]. apply Hinv. }
    exists pos. apply Hreach in R as [? ?]. done.
Qed.

Lemma player_stays_on_path_witness :
  (exists b, canMoveTo sample_maze START_X (START_Y + 1) = Returned b /\
             handleKeyDown sample_maze (START_X, START_Y) ArrowDown
             = Returned (if b then (START_X, START_Y + 1)
                         else (START_X, START_Y))) /\
  exists pos,
    play sample_maze (START_X, START_Y)
      [ArrowRight; ArrowRight; ArrowUp; ArrowDown; ArrowDown; ArrowLeft] = Returned pos /\
    read sample_maze pos.1 pos.2 = Some Path /\
    inb MAZE_WIDTH MAZE_HEIGHT pos.1 pos.2.
Proof.
  destruct (player_stays_on_path MAZE_WIDTH MAZE_HEIGHT sample_rnd 441 sample_maze)
    as (Hkeys & _ & Hplay);
    [reflexivity|reflexivity|unfold MAZE_WIDTH; lia|unfold MAZE_HEIGHT; lia
    |exact sample_maze_generated|].
  split; [apply Hkeys|apply Hplay].
Defined.

(* ===================================================================== *)
(** ** Dimensions that the specification calls invalid *)
(* ===================================================================== *)

(** C6, as stated, fails: [generateMaze] has no validation. For the width 0
    it returns a grid of empty rows with two stray passages, and for the
    even dimensions 22 x 22 a grid with a passage in the border column
    [width - 1]. *)
Lemma generateMaze_accepts_invalid_dimensions :
  invalid_dimensions 0 21 /\
  generateMaze 1 sample_rnd 0 21
  = Returned ([[]; [None; Some Path]] ++ replicate 17 [] ++
              [replicate 19 None ++ [Some Path]; []]) /\
  invalid_dimensions 22 22 /\
  exists g, generateMaze 484 sample_rnd 22 22 = Returned g /\
            read g 21 1 = Some Path.
Proof.
  split; [unfold invalid_dimensions; lia|].
  split; [vm_compute; reflexivity|].
  split; [unfold invalid_dimensions; lia|].
  eexists. split; vm_compute; reflexivity.
Qed.

(** C6, amended. [generateMaze] does not validate its dimensions. For every
    pair, invalid ones included: it throws a [RangeError] exactly when an
    [Array.from] is given a length above [2^32 - 1]; otherwise it throws a
    [TypeError] when [height < 2], where there is no row for the start
    cell; otherwise it runs the carving loop to its end, as for valid
    dimensions, and ends with a grid or with a [TypeError]. *)
Theorem generateMaze_no_validation (width height : Z) (rnd : nat -> nat)
    (fuel : nat) :
  (Z.to_nat height * Z.to_nat width < fuel)%nat ->
  (array_too_long width height /\
   generateMaze fuel rnd width height = RangeError) \/
  (~ array_too_long width height /\ height < 2 /\
   generateMaze fuel rnd width height = TypeError) \/
  (~ array_too_long width height /\ 2 <= height /\
   exists st0 st,
     enter_loop width height = Returned st0 /\
     carve fuel rnd st0 = Returned st /\ ls_stack st = [] /\
     (generateMaze fuel rnd width height = TypeError \/
      exists g, generateMaze fuel rnd width height = Returned g)).
Proof.
  intros Hfuel. unfold generateMaze.
  destruct (enter_loop_spec width height)
    as [[Hlong E]|[(Hshort & Hlt & E)|(Hshort & Hh & m0 & E & _)]];
    rewrite E; simpl.
  { by left. }
  { right; left. done. }
  right; right. split; [done|]. split; [done|].
  destruct (enter_loop_wf width height _ E) as (_ & Hm & _).
  destruct (carve_from_start width height rnd fuel _ E ltac:(lia)) as [st Hst].
  rewrite Hst. simpl.
  destruct (carve_rows width height rnd fuel _ st E Hst) as (Hs & _ & _ & Hrows).
  eexists _, st. split; [done|]. split; [done|]. split; [done|].
  destruct (goal_write height (ls_maze st) Hrows) as [[? ->]|(? & g & -> & _)];
    [by left|right; eauto].
Qed.

Lemma generateMaze_no_validation_witness :
  (array_too_long 0 21 /\ generateMaze 1 sample_rnd 0 21 = RangeError) \/
  (~ array_too_long 0 21 /\ 21 < 2 /\
   generateMaze 1 sample_rnd 0 21 = TypeError) \/
  (~ array_too_long 0 21 /\ 2 <= 21 /\
   exists st0 st,
     enter_loop 0 21 = Returned st0 /\
     carve 1 sample_rnd st0 = Returned st /\ ls_stack st = [] /\
     (generateMaze 1 sample_rnd 0 21 = TypeError \/
      exists g, generateMaze 1 sample_rnd 0 21 = Returned g)).
Proof.
  apply (generateMaze_no_validation 0 21 sample_rnd 1). simpl. lia.
Defined.

(* ===================================================================== *)
(** ** Further properties of the generator *)
(* ===================================================================== *)

Lemma write_same m x y v : read m x y = Some v -> write m x y v = Returned m.
Proof.
  unfold read, write, row_at, elem_at, array_set, Maze, Row in *.
  destruct (Z.ltb_spec y 0); [done|].
  destruct (m !! Z.to_nat y) as [row|] eqn:Er; [|done].
  destruct (Z.ltb_spec x 0); [done|].
  destruct (row !! Z.to_nat x) as [c|] eqn:Ec; [|done]. simpl. intros ->.
  pose proof (lookup_lt_Some _ _ _ Ec) as Hlt.
  destruct (Nat.ltb_spec (Z.to_nat x) (length row)); [|lia].
  by rewrite (list_insert_id row), (list_insert_id m).
Qed.

Lemma rows_length m height :
  (forall y, is_Some (row_at m y) <-> 0 <= y < height) -> 0 <= height ->
  length m = Z.to_nat height.
Proof.
  intros Hrows Hh.
  destruct (decide (length m < Z.to_nat height)%nat) as [Hlt|Hge].
  - assert (is_Some (row_at m (Z.of_nat (length m)))) as Hs by (apply Hrows; lia).
    apply row_at_is_Some in Hs. lia.
  - destruct (decide (Z.to_nat height < length m)%nat) as [Hgt|]; [|lia].
    assert (is_Some (row_at m height)) as Hs by (apply row_at_is_Some; lia).
    apply Hrows in Hs. lia.
Qed.

(** X1. The outcome of [generateMaze], for all dimensions and random
    draws: a [RangeError] exactly when an [Array.from] is given a length
    above [2^32 - 1]; otherwise a [TypeError] exactly when [height] does not
    exceed [GOAL_Y], a row it indexes (row 1 or row [GOAL_Y]) being missing;
    otherwise a grid, which has [height] rows. *)
Theorem generateMaze_returns_iff (width height : Z) (rnd : nat -> nat)
    (fuel : nat) :
  (Z.to_nat height * Z.to_nat width < fuel)%nat ->
  (array_too_long width height /\
   generateMaze fuel rnd width height = RangeError) \/
  (~ array_too_long width height /\ height <= GOAL_Y /\
   generateMaze fuel rnd width height = TypeError) \/
  (~ array_too_long width height /\ GOAL_Y < height /\
   exists g, generateMaze fuel rnd width height = Returned g /\
             length g = Z.to_nat height).
Proof.
  intros Hfuel. unfold generateMaze.
  destruct (enter_loop_spec width height)
    as [[Hlong E]|[(Hshort & Hlt & E)|(Hshort & Hh & m0 & E & _)]];
    rewrite E; simpl.
  { by left. }
  { right; left. split; [done|]. split; [unfold GOAL_Y, MAZE_HEIGHT; lia|done]. }
  right.
  destruct (enter_loop_wf width height _ E) as (_ & Hm & _).
  destruct (carve_from_start width height rnd fuel _ E ltac:(lia)) as [st Hst].
  rewrite Hst. simpl.
  destruct (carve_rows width height rnd fuel _ st E Hst) as (_ & _ & _ & Hrows).
  destruct (goal_write height (ls_maze st) Hrows) as [[? ->]|(? & g & Hg & _)];
    [by left|right].
  split; [done|]. split; [done|]. exists g. split; [done|].
  apply rows_length; [|lia]. intros y.
  rewrite <- (write_rows _ _ _ _ _ y Hg). apply Hrows.
Qed.

Lemma generateMaze_returns_iff_witness :
  (array_too_long 5 5 /\ generateMaze 26 sample_rnd 5 5 = RangeError) \/
  (~ array_too_long 5 5 /\ 5 <= GOAL_Y /\
   generateMaze 26 sample_rnd 5 5 = TypeError) \/
  (~ array_too_long 5 5 /\ GOAL_Y < 5 /\
   exists g, generateMaze 26 sample_rnd 5 5 = Returned g /\
             length g = Z.to_nat 5).
Proof.
  apply (generateMaze_returns_iff 5 5 sample_rnd 26). simpl. lia.
Defined.

(** X2. For odd [width] and [height] that exceed [GOAL_X] and [GOAL_Y] (the
    dimensions of the game among them), the grid returned by [generateMaze]
    is the grid left by the loop: the write of the goal cell changes
    nothing. All its passages lie in the rectangle, and a cell is a passage
    exactly when it is reached from the start cell. *)
Theorem generateMaze_goal_inside (width height : Z) (rnd : nat -> nat)
    (fuel : nat) (g : Maze) :
  width mod 2 = 1 -> height mod 2 = 1 -> GOAL_X < width -> GOAL_Y < height ->
  generateMaze fuel rnd width height = Returned g ->
  (exists st0 st, enter_loop width height = Returned st0 /\
                  carve fuel rnd st0 = Returned st /\ g = ls_maze st) /\
  (forall c, is_path g c -> inb width height c.1 c.2) /\
  (forall c, is_path g c <-> reach g (START_X, START_Y) c).
Proof.
  intros Hw Hh Hgx Hgy Hg.
  assert (Hw3 : 3 <= width) by (unfold GOAL_X, MAZE_WIDTH in Hgx; lia).
  assert (Hh3 : 3 <= height) by (unfold GOAL_Y, MAZE_HEIGHT in Hgy; lia).
  destruct (generateMaze_Returned width height Hw Hh Hw3 Hh3 rnd fuel g Hg)
    as (st0 & st & He & Hc & Hwr & Hinv & Hs & _ & _).
  assert (Hgoal : read (ls_maze st) GOAL_X GOAL_Y = Some Path).
  { apply (lattice_complete width height st Hinv Hs);
      [unfold inb, GOAL_X, GOAL_Y, MAZE_WIDTH, MAZE_HEIGHT in *; lia|].
    split; done. }
  rewrite (write_same _ _ _ _ Hgoal) in Hwr. injection Hwr as <-.
  pose proof (li_grid _ _ _ Hinv) as Hgi.
  split; [by exists st0, st|]. split.
  - intros [x y] Hp. destruct (gi_path _ _ _ Hgi _ _ Hp) as (? & ? & _).
    unfold inb. simpl in *. lia.
  - intros c. split; [apply (gi_conn _ _ _ Hgi)|apply reach_is_path].
Qed.

Lemma generateMaze_goal_inside_witness :
  (exists st0 st, enter_loop MAZE_WIDTH MAZE_HEIGHT = Returned st0 /\
                  carve 441 sample_rnd st0 = Returned st /\
                  sample_maze = ls_maze st) /\
  (forall c, is_path sample_maze c -> inb MAZE_WIDTH MAZE_HEIGHT c.1 c.2) /\
  (forall c, is_path sample_maze c <-> reach sample_maze (START_X, START_Y) c).
Proof.
  apply (generateMaze_goal_inside MAZE_WIDTH MAZE_HEIGHT sample_rnd 441 sample_maze);
    [reflexivity|reflexivity|unfold GOAL_X; lia|unfold GOAL_Y; lia
    |exact sample_maze_generated].
Defined.

(** X3. In every grid returned by [generateMaze] for odd [width] and
    [height] of at least 3, a cell of the rectangle whose coordinates have
    the same parity is a passage when they are odd and a wall when they are
    even. *)
Theorem lattice_is_path_pillars_are_wall (width height : Z)
    (rnd : nat -> nat) (fuel : nat) (g : Maze) :
  width mod 2 = 1 -> height mod 2 = 1 -> 3 <= width -> 3 <= height ->
  generateMaze fuel rnd width height = Returned g ->
  forall x y, inb width height x y -> x mod 2 = y mod 2 ->
    read g x y = Some (if decide (x mod 2 = 1) then Path else Wall).
Proof.
  intros Hw Hh Hw3 Hh3 Hg x y Hin Hpar.
  destruct (generateMaze_Returned width height Hw Hh Hw3 Hh3 rnd fuel g Hg)
    as (st0 & st & _ & _ & _ & Hinv & Hs & _ & Hr).
  rewrite (goal_write_inside width height st g Hinv Hs Hr x y Hin).
  pose proof (li_grid _ _ _ Hinv) as Hgi.
  case_decide as Hx.
  - apply (lattice_complete width height st Hinv Hs); [done|].
    split; simpl; lia.
  - destruct (gi_dom _ _ _ Hgi x y Hin) as [[|] Hc]; [done|].
    apply (gi_path _ _ _ Hgi) in Hc. lia.
Qed.

Lemma lattice_is_path_pillars_are_wall_witness :
  read sample_maze 5 7 = Some (if decide (5 mod 2 = 1) then Path else Wall) /\
  read sample_maze 4 6 = Some (if decide (4 mod 2 = 1) then Path else Wall).
Proof.
  split;
    apply (lattice_is_path_pillars_are_wall MAZE_WIDTH MAZE_HEIGHT sample_rnd
             441 sample_maze);
    [reflexivity|reflexivity|unfold MAZE_WIDTH; lia|unfold MAZE_HEIGHT; lia
    |exact sample_maze_generated|unfold inb, MAZE_WIDTH, MAZE_HEIGHT; lia
    |reflexivity
    |reflexivity|reflexivity|unfold MAZE_WIDTH; lia|unfold MAZE_HEIGHT; lia
    |exact sample_maze_generated|unfold inb, MAZE_WIDTH, MAZE_HEIGHT; lia
    |reflexivity].
Defined.

(* --------------------------------------------------------------------- *)
(** *** Counting the lattice *)

Lemma odd_seqZ_length (n : Z) :
  length (filter (fun x => x mod 2 = 1) (seqZ 0 n)) = Z.to_nat (n / 2).
Proof.
  destruct (decide (n <= 0)) as [Hn|Hn].
  { rewrite seqZ_nil by done. simpl. lia. }
  rewrite <- (Z2Nat.id n) by lia. generalize (Z.to_nat n) as k. clear.
  induction k as [|k IH]; [done|].
  rewrite seqZ_S, filter_app, length_app, IH. simpl.
  rewrite filter_cons. case_decide; simpl; lia.
Qed.

Lemma lattice_row_length (y : Z) (lx : list Z) :
  length (filter lattice ((fun x => (x, y)) <$> lx)) =
  if decide (y mod 2 = 1) then length (filter (fun x => x mod 2 = 1) lx) else O.
Proof.
  unfold Coord. induction lx as [|x lx IH]; [by case_decide|].
  rewrite fmap_cons, !filter_cons.
  destruct (decide (lattice (x, y))) as [[H1 H2]|Hn]; simpl length;
    rewrite IH; simpl in *; repeat case_decide; simpl; try lia.
  exfalso. apply Hn. by split.
Qed.

Lemma length_lattice_cells (width height : Z) :
  length (lattice_cells width height)
  = (Z.to_nat (height / 2) * Z.to_nat (width / 2))%nat.
Proof.
  unfold lattice_cells, cells. rewrite <- (odd_seqZ_length height).
  induction (seqZ 0 height) as [|y ly IH]; [done|].
  csimpl. rewrite filter_app, length_app, lattice_row_length, filter_cons.
  rewrite odd_seqZ_length.
  case_decide; simpl; [f_equal|]; exact IH.
Qed.

(** X4. The number of passages does not depend on the random draws: in every
    grid returned by [generateMaze] for odd [width] and [height] of at least
    3, the rectangle holds [(width / 2) * (height / 2)] lattice passages and
    one less than twice as many passages in all. *)
Theorem passage_count (width height : Z) (rnd : nat -> nat) (fuel : nat)
    (g : Maze) :
  width mod 2 = 1 -> height mod 2 = 1 -> 3 <= width -> 3 <= height ->
  generateMaze fuel rnd width height = Returned g ->
  nodes width height g = (Z.to_nat (height / 2) * Z.to_nat (width / 2))%nat /\
  length (carved_cells width height g)
  = (2 * (Z.to_nat (height / 2) * Z.to_nat (width / 2)) - 1)%nat.
Proof.
  intros Hw Hh Hw3 Hh3 Hg.
  destruct (generateMaze_Returned width height Hw Hh Hw3 Hh3 rnd fuel g Hg)
    as (st0 & st & _ & _ & _ & Hinv & Hs & _ & Hr).
  pose proof (goal_write_inside width height st g Hinv Hs Hr) as Hin.
  pose proof (li_grid _ _ _ Hinv) as Hgi.
  assert (En : nodes width height g = length (lattice_cells width height)).
  { unfold nodes, lattice_cells. f_equal. apply filter_agree.
    intros [a b] Hc%elem_of_cells. split; [tauto|]. intros Hl. split; [|done].
    unfold is_path. simpl. rewrite Hin by done.
    by apply (lattice_complete width height st Hinv Hs). }
  assert (Em : nodes width height (ls_maze st) = nodes width height g).
  { unfold nodes. f_equal. apply filter_agree. intros [a b] Hc%elem_of_cells.
    unfold is_path. simpl. by rewrite Hin. }
  assert (Ee : edges width height (ls_maze st) = edges width height g).
  { unfold edges. f_equal. apply filter_agree. intros [a b] Hc%elem_of_cells.
    unfold is_path. simpl. by rewrite Hin. }
  pose proof (gi_count _ _ _ Hgi) as Hcount.
  rewrite length_lattice_cells in En. split; [done|].
  unfold carved_cells. rewrite (filter_split_length _ lattice).
  fold (nodes width height g) (edges width height g). lia.
Qed.

Lemma passage_count_witness :
  nodes MAZE_WIDTH MAZE_HEIGHT sample_maze = 100%nat /\
  length (carved_cells MAZE_WIDTH MAZE_HEIGHT sample_maze) = 199%nat.
Proof.
  apply (passage_count MAZE_WIDTH MAZE_HEIGHT sample_rnd 441 sample_maze);
    [reflexivity|reflexivity|unfold MAZE_WIDTH; lia|unfold MAZE_HEIGHT; lia
    |exact sample_maze_generated].
Defined.

(* --------------------------------------------------------------------- *)
(** *** The cells popped by the loop *)

Lemma iteration_lattice_inv width height rnd st x y rest st' :
  loop_inv width height st -> lattice_inv st ->
  ls_stack st = (x, y) :: rest ->
  iteration rnd st x y rest = Returned st' -> lattice_inv st'.
Proof.
  intros Hinv [Hpl Hall] E Hit.
  pose proof (li_wf _ _ _ Hinv) as Hwf.
  destruct (iteration_spec width height rnd st x y rest Hwf E)
    as (st2 & Hit2 & V & Hd & _ & Hpopped).
  rewrite Hit in Hit2. injection Hit2 as <-.
  destruct (iteration_wf width height rnd st x y rest st' Hwf E Hit)
    as (Hwf' & _ & _).
  destruct (li_stack _ _ _ Hinv (x, y)) as [_ Hl]; [rewrite E; by left|].
  destruct (visited_effect width height _ _ _ _ _ V (wf_walls _ _ _ Hwf))
    as (_ & _ & ps & Eps & _ & _ & _ & _ & Hnew). simpl in *.
  split.
  - rewrite Hpopped. intros c [->|Hc]%elem_of_cons; [done|by apply Hpl].
  - intros c Hp Hlc. rewrite Eps, Hpopped.
    destruct (Hnew c Hp) as [Hold|[Hc|(d & Hd' & _ & ->)]].
    + specialize (Hall c Hold Hlc). rewrite E in Hall.
      apply elem_of_app in Hall as [[->|Hin]%elem_of_cons|Hin].
      * apply elem_of_app. right. by left.
      * apply elem_of_app. left. apply elem_of_app. by right.
      * apply elem_of_app. right. by right.
    + apply elem_of_app. left. apply elem_of_app. by left.
    + exfalso. assert (d ∈ directions) as Hdd.
      { by rewrite <- (wf_dirs _ _ _ Hwf'). }
      apply in_directions in Hdd.
      destruct Hl as [Hl1 Hl2], Hlc as [Hc1 Hc2]. simpl in *.
      destruct Hdd as [-> | [-> | [-> | ->]]]; simpl in *; lia.
Qed.

Lemma enter_loop_lattice_inv width height st0 :
  enter_loop width height = Returned st0 -> lattice_inv st0.
Proof.
  intros He.
  destruct (enter_loop_spec width height)
    as [[_ E]|[(_ & _ & E)|(_ & _ & m0 & E & Hr & _)]];
    rewrite E in He; [done..|].
  injection He as <-. split; simpl.
  - intros c Hc. by inversion Hc.
  - intros [x y] Hp _. unfold is_path in Hp. simpl in Hp. rewrite Hr in Hp.
    case_decide as Hd; [|by repeat case_decide].
    destruct Hd as [-> ->]. by left.
Qed.

(** X5. For odd [width] and [height] of at least 3 and any random draws:
    either a dimension is not an array length and [generateMaze] throws a
    [RangeError] before the loop, or the loop pops every lattice cell of the
    rectangle exactly once and nothing else, and so runs for exactly
    [(width / 2) * (height / 2)] iterations. *)
Theorem loop_pops_the_lattice (width height : Z) (rnd : nat -> nat) :
  width mod 2 = 1 -> height mod 2 = 1 -> 3 <= width -> 3 <= height ->
  (array_too_long width height /\
   generateMaze (Z.to_nat (width * height)) rnd width height = RangeError) \/
  (~ array_too_long width height /\
   exists st0 st,
    enter_loop width height = Returned st0 /\
    carve (Z.to_nat (width * height)) rnd st0 = Returned st /\
    ls_popped st ≡ₚ lattice_cells width height /\
    length (ls_popped st) = (Z.to_nat (height / 2) * Z.to_nat (width / 2))%nat).
Proof.
  intros Hw Hh Hw3 Hh3.
  destruct (enter_loop_spec width height)
    as [[Hlong He]|[(_ & Hlt & _)|(Hshort & _ & m0 & He & _)]]; [|lia|].
  { left. split; [done|]. unfold generateMaze. by rewrite He. }
  right. split; [done|].
  destruct (enter_loop_wf width height _ He) as (_ & _ & Hm).
  specialize (Hm ltac:(lia)).
  destruct (carve_from_start width height rnd (Z.to_nat (width * height)) _ He)
    as [st Hst]; [rewrite Z2Nat.inj_mul by lia; lia|].
  destruct (carve_invariant rnd
              (fun st => loop_inv width height st /\ lattice_inv st)) with
    (fuel := Z.to_nat (width * height))
    (st := mkLoop m0 [(START_X, START_Y)] directions 0 []) (st' := st)
    as [[Hinv Hlv] Hs]; [| |done|].
  { intros s x y rest s' [Hi Hl] E Hit. split.
    - by eapply iteration_loop_inv.
    - by eapply iteration_lattice_inv. }
  { split; [by eapply enter_loop_inv|by eapply enter_loop_lattice_inv]. }
  assert (Hperm : ls_popped st ≡ₚ lattice_cells width height).
  { apply NoDup_Permutation.
    - pose proof (li_nodup _ _ _ Hinv) as Hnd. by rewrite Hs in Hnd.
    - apply NoDup_filter, NoDup_cells.
    - intros [a b]. unfold lattice_cells.
      rewrite list_elem_of_filter, elem_of_cells. split.
      + intros Hc. split; [by apply (lv_popped _ Hlv)|].
        pose proof (li_popped _ _ _ Hinv _ Hc) as Hp.
        destruct (gi_path _ _ _ (li_grid _ _ _ Hinv) _ _ Hp) as (? & ? & _).
        unfold inb. simpl in *. lia.
      + intros [Hl Hin].
        pose proof (lattice_complete width height st Hinv Hs a b Hin Hl) as Hp.
        pose proof (lv_all _ Hlv (a, b) Hp Hl) as Hc.
        by rewrite Hs in Hc. }
  exists (mkLoop m0 [(START_X, START_Y)] directions 0 []), st.
  split_and!; [done..|].
  rewrite Hperm. apply length_lattice_cells.
Qed.

Lemma loop_pops_the_lattice_witness :
  exists st0 st,
    enter_loop MAZE_WIDTH MAZE_HEIGHT = Returned st0 /\
    carve (Z.to_nat (MAZE_WIDTH * MAZE_HEIGHT)) sample_rnd st0 = Returned st /\
    ls_popped st ≡ₚ lattice_cells MAZE_WIDTH MAZE_HEIGHT /\
    length (ls_popped st)
    = (Z.to_nat (MAZE_HEIGHT / 2) * Z.to_nat (MAZE_WIDTH / 2))%nat.
Proof.
  destruct (loop_pops_the_lattice MAZE_WIDTH MAZE_HEIGHT sample_rnd)
    as [[Hlong _]|[_ H]];
    [reflexivity|reflexivity|unfold MAZE_WIDTH; lia|unfold MAZE_HEIGHT; lia
    | |exact H].
  exfalso. unfold array_too_long, MAX_ARRAY_LENGTH, MAZE_WIDTH, MAZE_HEIGHT in Hlong.
  lia.
Defined.

(* --------------------------------------------------------------------- *)
(** *** The grid during the run *)

Lemma steps_add k j rnd st :
  steps (k + j) rnd st = bind (steps k rnd st) (steps j rnd).
Proof.
  revert st. induction k as [|k IH]; intros st; [done|].
  simpl. destruct (ls_stack st) as [|[x y] rest] eqn:E.
  - simpl. destruct j; simpl; by rewrite ?E.
  - destruct (iteration rnd st x y rest); simpl; [apply IH|done..].
Qed.

Lemma steps_wf width height rnd k st :
  wf width height st ->
  exists st', steps k rnd st = Returned st' /\ wf width height st' /\
              grows (ls_maze st) (ls_maze st').
Proof.
  revert st. induction k as [|k IH]; intros st Hwf; simpl.
  { exists st. split_and!; [done..|apply grows_refl]. }
  destruct (ls_stack st) as [|[x y] rest] eqn:E.
  { exists st. split_and!; [done..|apply grows_refl]. }
  destruct (iteration_spec width height rnd st x y rest Hwf E) as (st1 & Hit & _).
  rewrite Hit. simpl.
  destruct (iteration_wf width height rnd st x y rest st1 Hwf E Hit)
    as (Hwf1 & _ & G1).
  destruct (IH st1 Hwf1) as (st' & Hst' & Hwf' & G').
  exists st'. split_and!; [done..|by eapply grows_trans].
Qed.

(** X6. For all dimensions with at least two rows and any random draws:
    either a dimension is not an array length and [generateMaze] throws a
    [RangeError] before the loop, or no iteration of the loop throws, and
    from any moment of the run to any later one the grid only gains
    passages: a passage stays a passage, no wall appears, and the number of
    rows does not change. *)
Theorem grid_only_gains_passages (width height : Z) (rnd : nat -> nat) :
  2 <= height ->
  (array_too_long width height /\
   forall fuel, generateMaze fuel rnd width height = RangeError) \/
  (~ array_too_long width height /\
   exists st0, enter_loop width height = Returned st0 /\
    forall k j, exists st1 st2,
      steps k rnd st0 = Returned st1 /\
      steps (k + j) rnd st0 = Returned st2 /\
      (forall x y, read (ls_maze st1) x y = Some Path ->
                   read (ls_maze st2) x y = Some Path) /\
      (forall x y, read (ls_maze st2) x y = Some Wall ->
                   read (ls_maze st1) x y = Some Wall) /\
      length (ls_maze st1) = length (ls_maze st2)).
Proof.
  intros Hh.
  destruct (enter_loop_spec width height)
    as [[Hlong He]|[(_ & Hlt & _)|(Hshort & _ & m0 & He & _)]]; [|lia|].
  { left. split; [done|]. intros fuel. unfold generateMaze. by rewrite He. }
  right. split; [done|].
  destruct (enter_loop_wf width height _ He) as (Hwf & _).
  eexists. split; [exact He|]. intros k j.
  destruct (steps_wf width height rnd k _ Hwf) as (st1 & H1 & Hwf1 & _).
  destruct (steps_wf width height rnd j _ Hwf1) as (st2 & H2 & _ & (GP & GW & GR)).
  exists st1, st2. split; [done|]. split.
  { rewrite steps_add, H1. exact H2. }
  split; [done|]. split; [done|].
  destruct (decide (length (ls_maze st1) < length (ls_maze st2))%nat).
  - assert (is_Some (row_at (ls_maze st2) (Z.of_nat (length (ls_maze st1)))))
      as Hs%GR by (apply row_at_is_Some; lia).
    apply row_at_is_Some in Hs. lia.
  - destruct (decide (length (ls_maze st2) < length (ls_maze st1))%nat); [|lia].
    assert (is_Some (row_at (ls_maze st1) (Z.of_nat (length (ls_maze st2)))))
      as Hs%GR by (apply row_at_is_Some; lia).
    apply row_at_is_Some in Hs. lia.
Qed.

Lemma grid_only_gains_passages_witness :
  exists st0, enter_loop MAZE_WIDTH MAZE_HEIGHT = Returned st0 /\
    forall k j, exists st1 st2,
      steps k sample_rnd st0 = Returned st1 /\
      steps (k + j) sample_rnd st0 = Returned st2 /\
      (forall x y, read (ls_maze st1) x y = Some Path ->
                   read (ls_maze st2) x y = Some Path) /\
      (forall x y, read (ls_maze st2) x y = Some Wall ->
                   read (ls_maze st1) x y = Some Wall) /\
      length (ls_maze st1) = length (ls_maze st2).
Proof.
  destruct (grid_only_gains_passages MAZE_WIDTH MAZE_HEIGHT sample_rnd)
    as [[Hlong _]|[_ H]]; [unfold MAZE_HEIGHT; lia| |exact H].
  exfalso. unfold array_too_long, MAX_ARRAY_LENGTH, MAZE_WIDTH, MAZE_HEIGHT in Hlong.
  lia.
Defined.

(** X7. For every odd [width] from 3 to [GOAL_X], every odd [height] above
    [GOAL_Y] that is an array length, and any random draws, [generateMaze]
    returns a grid with a passage at [(GOAL_X, GOAL_Y)], which lies outside
    the rectangle, has no passage next to it and is not reached from the
    start cell. *)
Theorem narrow_grid_has_stray_goal (width height : Z) (rnd : nat -> nat) :
  width mod 2 = 1 -> height mod 2 = 1 -> 3 <= width <= GOAL_X ->
  GOAL_Y < height <= MAX_ARRAY_LENGTH ->
  exists g,
    generateMaze (Z.to_nat (width * height)) rnd width height = Returned g /\
    read g GOAL_X GOAL_Y = Some Path /\
    ~ inb width height GOAL_X GOAL_Y /\
    (forall c, adjacent (GOAL_X, GOAL_Y) c -> ~ is_path g c) /\
    ~ reach g (START_X, START_Y) (GOAL_X, GOAL_Y).
Proof.
  intros Hw Hh [Hw3 Hwg] [Hgy Hmax].
  assert (Hh3 : 3 <= height) by (unfold GOAL_Y, MAZE_HEIGHT in Hgy; lia).
  destruct (generateMaze_outcome width height rnd (Z.to_nat (width * height)))
    as [[Hlong _]|[(_ & Hle & _)|(_ & _ & g & Hg)]]; [| |lia|].
  { intros st0 He. destruct (enter_loop_wf width height st0 He) as (_ & _ & Hm).
    specialize (Hm ltac:(lia)). rewrite Z2Nat.inj_mul by lia. lia. }
  { exfalso. unfold array_too_long, GOAL_X, MAZE_WIDTH, MAX_ARRAY_LENGTH in *.
    lia. }
  destruct (generateMaze_Returned width height Hw Hh Hw3 Hh3 rnd _ g Hg)
    as (st0 & st & _ & _ & _ & Hinv & Hs & _ & Hr).
  pose proof (li_grid _ _ _ Hinv) as Hgi.
  exists g. split; [done|]. split.
  { rewrite Hr, decide_True by done. done. }
  split; [unfold inb; lia|]. split.
  - intros [a b] Hadj Hp. unfold adjacent, is_path in *. simpl in *.
    rewrite Hr in Hp. case_decide as Hd.
    + destruct Hd as [-> ->]. lia.
    + apply (gi_path _ _ _ Hgi) in Hp as (Hx & Hy & _). lia.
  - intros R.
    apply (reach_final width height Hw3 Hh3 st g Hinv Hs Hgy Hr) in R.
    destruct R as [[Hx _] _]. simpl in Hx. lia.
Qed.

Lemma narrow_grid_has_stray_goal_witness :
  exists g,
    generateMaze (Z.to_nat (3 * 21)) sample_rnd 3 21 = Returned g /\
    read g GOAL_X GOAL_Y = Some Path /\
    ~ inb 3 21 GOAL_X GOAL_Y /\
    (forall c, adjacent (GOAL_X, GOAL_Y) c -> ~ is_path g c) /\
    ~ reach g (START_X, START_Y) (GOAL_X, GOAL_Y).
Proof.
  apply (narrow_grid_has_stray_goal 3 21 sample_rnd);
    [reflexivity|reflexivity|unfold GOAL_X, MAZE_WIDTH; lia
    |unfold GOAL_Y, MAZE_HEIGHT, MAX_ARRAY_LENGTH; lia].
Defined.

(* ===================================================================== *)
(** ** Further properties of the movement *)
(* ===================================================================== *)

Lemma play_app maze pos ks1 ks2 :
  play maze pos (ks1 ++ ks2) = bind (play maze pos ks1) (fun p => play maze p ks2).
Proof.
  revert pos. induction ks1 as [|k ks1 IH]; intros pos; [done|].
  simpl. destruct (handleKeyDown maze pos k); simpl; [apply IH|done..].
Qed.

Lemma adjacent_key (b c : Coord) :
  adjacent b c -> exists k, candidate b k = c.
Proof.
  destruct b as [bx b_y], c as [cx cy]. unfold adjacent. simpl. intros Hadj.
  destruct (decide (cx = bx + 1)); [exists ArrowRight; simpl; f_equal; lia|].
  destruct (decide (cx = bx - 1)); [exists ArrowLeft; simpl; f_equal; lia|].
  destruct (decide (cy = b_y + 1)); [exists ArrowDown; simpl; f_equal; lia|].
  exists ArrowUp. simpl. f_equal; lia.
Qed.

Lemma play_reach maze a c :
  reach maze a c -> exists keys, play maze a keys = Returned c.
Proof.
  induction 1 as [Ha|b c R [keys IH] Hadj Hc]; [by exists []|].
  destruct (adjacent_key b c Hadj) as [k Hk].
  exists (keys ++ [k]). rewrite play_app, IH. simpl.
  destruct (handleKeyDown_spec maze b k) as (_ & ok & _ & Hok & ->).
  rewrite Hk in *. destruct ok; [done|].
  apply Hok in Hc. done.
Qed.

(** X9. On every grid returned by [generateMaze] for odd [width] and [height]
    of at least 3, every passage of the rectangle can be walked to from the
    start cell by some sequence of arrow keys; the goal cell
    [(width - 2, height - 2)] is one of them. *)
Theorem every_passage_can_be_walked_to (width height : Z) (rnd : nat -> nat)
    (fuel : nat) (g : Maze) :
  width mod 2 = 1 -> height mod 2 = 1 -> 3 <= width -> 3 <= height ->
  generateMaze fuel rnd width height = Returned g ->
  (forall c, inb width height c.1 c.2 -> is_path g c ->
     exists keys, play g (START_X, START_Y) keys = Returned c) /\
  exists keys, play g (START_X, START_Y) keys = Returned (width - 2, height - 2).
Proof.
  intros Hw Hh Hw3 Hh3 Hg.
  destruct (generateMaze_Returned width height Hw Hh Hw3 Hh3 rnd fuel g Hg)
    as (st0 & st & _ & _ & _ & Hinv & Hs & Hgy & Hr).
  pose proof (reach_final width height Hw3 Hh3 st g Hinv Hs Hgy Hr) as Hreach.
  assert (Hall : forall c, inb width height c.1 c.2 -> is_path g c ->
            exists keys, play g (START_X, START_Y) keys = Returned c).
  { intros c Hin Hp. apply play_reach, Hreach. done. }
  split; [done|]. apply Hall; [unfold inb; simpl; lia|].
  unfold is_path. simpl.
  rewrite (goal_write_inside width height st g Hinv Hs Hr)
    by (unfold inb; lia).
  apply (lattice_complete width height st Hinv Hs);
    [unfold inb; lia|split; simpl; lia].
Qed.

Lemma every_passage_can_be_walked_to_witness :
  (forall c, inb MAZE_WIDTH MAZE_HEIGHT c.1 c.2 -> is_path sample_maze c ->
     exists keys, play sample_maze (START_X, START_Y) keys = Returned c) /\
  exists keys, play sample_maze (START_X, START_Y) keys
               = Returned (MAZE_WIDTH - 2, MAZE_HEIGHT - 2).
Proof.
  apply (every_passage_can_be_walked_to MAZE_WIDTH MAZE_HEIGHT sample_rnd 441
           sample_maze);
    [reflexivity|reflexivity|unfold MAZE_WIDTH; lia|unfold MAZE_HEIGHT; lia
    |exact sample_maze_generated].
Defined.

(** X10. A move can be taken back: when a key has moved a player who stood
    on a passage, the opposite arrow key moves the player back to where it
    was. *)
Theorem move_undone_by_opposite_key (maze : Maze) (pos pos' : Coord) (k : Key) :
  is_path maze pos ->
  handleKeyDown maze pos k = Returned pos' -> pos' <> pos ->
  handleKeyDown maze pos' (opposite k) = Returned pos.
Proof.
  intros Hp Hk Hne.
  destruct (handleKeyDown_spec maze pos k) as (_ & ok & _ & _ & Hk').
  rewrite Hk in Hk'. injection Hk' as ->.
  destruct ok; [|done].
  destruct (handleKeyDown_spec maze (candidate pos k) (opposite k))
    as (_ & ok' & _ & Hok' & ->).
  assert (Hback : candidate (candidate pos k) (opposite k) = pos).
  { destruct pos as [px py], k; simpl; f_equal; lia. }
  rewrite Hback in *. destruct ok'; [done|].
  apply Hok' in Hp. done.
Qed.

Lemma move_undone_by_opposite_key_witness :
  handleKeyDown sample_maze (START_X, START_Y + 1) (opposite ArrowDown)
  = Returned (START_X, START_Y).
Proof.
  apply (move_undone_by_opposite_key sample_maze (START_X, START_Y)
           (START_X, START_Y + 1) ArrowDown);
    [reflexivity|reflexivity|by intros [= ?]].
Defined.

(** X11. On a grid without any passage no key moves the player. This is the
    state of the game before the generated grid is there: [maze] is then the
    empty array. *)
Theorem no_passage_no_move (maze : Maze) (pos : Coord) (keys : list Key) :
  (forall x y, read maze x y <> Some Path) ->
  play maze pos keys = Returned pos.
Proof.
  intros Hno. induction keys as [|k keys IH]; [done|]. simpl.
  destruct (handleKeyDown_spec maze pos k) as (_ & ok & _ & Hok & ->).
  destruct ok; [|exact IH].
  exfalso. apply (Hno (candidate pos k).1 (candidate pos k).2). by apply Hok.
Qed.

Lemma no_passage_no_move_witness :
  play [] (START_X, START_Y) [ArrowRight; ArrowDown; OtherKey; ArrowLeft]
  = Returned (START_X, START_Y).
Proof.
  apply (no_passage_no_move [] (START_X, START_Y)). intros x y.
  unfold read, row_at. by destruct (x <? 0), (y <? 0).
Defined.

(* ===================================================================== *)
(** ** The shape of the grid and the rendering *)
(* ===================================================================== *)

Lemma rectangular_read width height m x y :
  rectangular width height m ->
  is_Some (read m x y) <-> inb width height x y.
Proof.
  intros [Hlen Hrows]. unfold read, row_at, elem_at, inb, Maze, Row in *.
  destruct (Z.ltb_spec y 0); [split; [by intros [? ?]|lia]|].
  destruct (m !! Z.to_nat y) as [row|] eqn:Er.
  - pose proof (lookup_lt_Some _ _ _ Er) as Hy.
    destruct (Hrows row) as [Hl Hc]; [by eapply list_elem_of_lookup_2|].
    destruct (Z.ltb_spec x 0); [split; [by intros [? ?]|lia]|].
    destruct (row !! Z.to_nat x) as [c|] eqn:Ec; simpl.
    + pose proof (lookup_lt_Some _ _ _ Ec) as Hx.
      split; [lia|]. intros _. apply Hc. by eapply list_elem_of_lookup_2.
    + apply lookup_ge_None in Ec. split; [by intros [? ?]|lia].
  - apply lookup_ge_None in Er. split; [by intros [? ?]|lia].
Qed.

Lemma write_rectangular width height m x y v m' :
  rectangular width height m -> 0 <= x < width ->
  write m x y v = Returned m' -> rectangular width height m'.
Proof.
  intros [Hlen Hrows] Hx. unfold write.
  destruct (row_at m y) as [row|] eqn:Er; [|done]. intros [= <-].
  destruct (row_at_Some _ _ _ Er) as [Hy Hlt].
  unfold row_at, Maze, Row in *. destruct (Z.ltb_spec y 0); [lia|].
  destruct (Hrows row) as [Hl Hc]; [by eapply list_elem_of_lookup_2|].
  unfold rectangular, Maze, Row in *.
  split; [rewrite <- Hlen; apply length_insert|].
  intros row' [i Hi]%list_elem_of_lookup.
  destruct (decide (i = Z.to_nat y)) as [->|Hne].
  - rewrite list_lookup_insert_eq in Hi by done. injection Hi as <-.
    unfold array_set, Row in *. destruct (Z.ltb_spec x 0); [lia|].
    destruct (Nat.ltb_spec (Z.to_nat x) (length row)); [|lia].
    split; [rewrite <- Hl; apply length_insert|].
    intros c [j Hj]%list_elem_of_lookup.
    destruct (decide (j = Z.to_nat x)) as [->|Hnj].
    + rewrite list_lookup_insert_eq in Hj by done. injection Hj as <-. eauto.
    + rewrite list_lookup_insert_ne in Hj by done.
      apply Hc. by eapply list_elem_of_lookup_2.
  - rewrite list_lookup_insert_ne in Hi by done.
    apply Hrows. by eapply list_elem_of_lookup_2.
Qed.

Lemma wall_grid_rectangular width height :
  rectangular width height (wall_grid width height).
Proof.
  unfold rectangular, wall_grid, Maze, Row.
  split; [by rewrite length_replicate|].
  intros row [-> _]%elem_of_replicate. split; [by rewrite length_replicate|].
  intros c [-> _]%elem_of_replicate. eauto.
Qed.

Lemma visit_rectangular width height x y m stack d m' stack' :
  rectangular width height m -> inb width height x y -> d ∈ directions ->
  visit x y (m, stack) d = Returned (m', stack') ->
  rectangular width height m' /\
  forall c, c ∈ stack' -> c ∈ stack \/ inb width height c.1 c.2.
Proof.
  intros Hrect [Hx Hy] Hd. unfold visit. destruct d as [dx dy].
  rewrite opt_index_read. simpl.
  destruct (read m (x + dx) (y + dy)) as [[|]|] eqn:Hn;
    try (intros [= <- <-]; split; [done|by left]).
  assert (Hin : inb width height (x + dx) (y + dy)).
  { apply (rectangular_read _ _ _ _ _ Hrect). eauto. }
  destruct (write m (x + dx) (y + dy) Path) as [m1| | |] eqn:H1; [|done..].
  simpl.
  destruct (write m1 (x + dx / 2) (y + dy / 2) Path) as [m2| | |] eqn:H2; [|done..].
  simpl. intros [= <- <-].
  destruct Hin as [Hnx Hny]. split.
  - eapply write_rectangular; [|  |exact H2].
    + eapply write_rectangular; [exact Hrect|done|exact H1].
    + apply in_directions in Hd as [[= -> ->]|[[= -> ->]|[[= -> ->]|[= -> ->]]]];
        lia.
  - intros c [->|Hc]%elem_of_cons; [right; by split|by left].
Qed.

Lemma forEach_rectangular width height x y dirs m stack m' stack' :
  rectangular width height m -> inb width height x y ->
  (forall d, d ∈ dirs -> d ∈ directions) ->
  forEach x y dirs (m, stack) = Returned (m', stack') ->
  rectangular width height m' /\
  forall c, c ∈ stack' -> c ∈ stack \/ inb width height c.1 c.2.
Proof.
  intros Hrect Hin. revert m stack Hrect.
  induction dirs as [|d ds IH]; intros m stack Hrect Hds.
  { intros [= <- <-]. split; [done|by left]. }
  rewrite forEach_cons.
  destruct (visit x y (m, stack) d) as [[m1 s1]| | |] eqn:Hv; [|done..]. simpl.
  destruct (visit_rectangular _ _ _ _ _ _ _ _ _ Hrect Hin
              ltac:(apply Hds; left) Hv) as [Hrect1 Hs1].
  intros Hf.
  destruct (IH m1 s1 Hrect1 ltac:(intros; apply Hds; by right) Hf) as [Hrect' Hs'].
  split; [done|]. intros c Hc.
  destruct (Hs' c Hc) as [Hc1|?]; [|by right]. by apply Hs1.
Qed.

(** The loop keeps the grid a full rectangle. *)
Lemma carve_rectangular width height rnd fuel st0 st :
  2 <= width ->
  enter_loop width height = Returned st0 ->
  carve fuel rnd st0 = Returned st ->
  rectangular width height (ls_maze st).
Proof.
  intros Hw He Hst.
  destruct (enter_loop_wf width height st0 He) as (Hwf & _).
  assert (H0 : rectangular width height (ls_maze st0) /\
               forall c, c ∈ ls_stack st0 -> inb width height c.1 c.2).
  { unfold enter_loop in He.
    destruct (init_maze_spec width height) as [[_ Ei]|[_ Ei]];
      rewrite Ei in He; [done|]. simpl in He.
    destruct (write (wall_grid width height) START_X START_Y Path)
      as [m0| | |] eqn:Hm0; [|done..]. injection He as <-. simpl. split.
    - eapply write_rectangular; [apply wall_grid_rectangular| |exact Hm0].
      unfold START_X. lia.
    - intros c [->|Hc]%elem_of_cons; [|by inversion Hc].
      apply (rectangular_read _ _ (wall_grid width height));
        [apply wall_grid_rectangular|].
      simpl. unfold write in Hm0.
      destruct (row_at (wall_grid width height) START_Y) as [row|] eqn:Er;
        [|done].
      assert (is_Some (row_at (wall_grid width height) START_Y)) as Hs by eauto.
      apply init_rows in Hs. rewrite read_wall_grid.
      rewrite decide_True; [eauto|]. unfold inb, START_X. lia. }
  apply (carve_invariant rnd
           (fun st => wf width height st /\
                      rectangular width height (ls_maze st) /\
                      forall c, c ∈ ls_stack st -> inb width height c.1 c.2))
    with (fuel := fuel) (st := st0); [|by split|done].
  intros s x y rest s' (W & R & S) E Hit.
  destruct (iteration_wf width height rnd s x y rest s' W E Hit) as (W' & _ & _).
  split; [done|]. unfold iteration in Hit.
  destruct (forEach x y _ _) as [[m' stack']| | |] eqn:Hf; [|done..].
  simpl in Hit. injection Hit as <-. simpl.
  destruct (forEach_rectangular width height _ _ _ _ _ _ _ R
              (S (x, y) ltac:(rewrite E; by left))
              ltac:(intros d Hd; rewrite <- (wf_dirs _ _ _ W);
                    by rewrite <- (shuffle_Permutation (rnd (ls_tick s))))
              Hf) as [R' S'].
  split; [done|]. intros c Hc. destruct (S' c Hc) as [Hr|?]; [|done].
  apply S. rewrite E. by right.
Qed.

Lemma generateMaze_rectangular width height rnd fuel g :
  GOAL_X < width ->
  generateMaze fuel rnd width height = Returned g ->
  rectangular width height g.
Proof.
  intros Hgx. unfold generateMaze.
  destruct (enter_loop width height) as [st0| | |] eqn:He; [|done..]. simpl.
  destruct (carve fuel rnd st0) as [st| | |] eqn:Hc; [|done..]. simpl.
  intros Hg.
  eapply write_rectangular; [|  |exact Hg].
  - eapply carve_rectangular; [|exact He|exact Hc].
    unfold GOAL_X, MAZE_WIDTH in Hgx. lia.
  - unfold GOAL_X, MAZE_WIDTH in *. lia.
Qed.

(** X8. Whenever [width] exceeds [GOAL_X], for even dimensions too, the grid
    returned by [generateMaze] is a full rectangle: exactly [height] rows of
    exactly [width] cells, each holding 0 or 1, and no slot is defined
    outside it. *)
Theorem returned_grid_is_rectangular (width height : Z) (rnd : nat -> nat)
    (fuel : nat) (g : Maze) :
  GOAL_X < width ->
  generateMaze fuel rnd width height = Returned g ->
  rectangular width height g /\
  forall x y, is_Some (read g x y) <-> inb width height x y.
Proof.
  intros Hgx Hg.
  pose proof (generateMaze_rectangular width height rnd fuel g Hgx Hg) as Hrect.
  split; [done|]. intros x y. by apply rectangular_read.
Qed.

Lemma returned_grid_is_rectangular_witness :
  rectangular MAZE_WIDTH MAZE_HEIGHT sample_maze /\
  forall x y, is_Some (read sample_maze x y) <-> inb MAZE_WIDTH MAZE_HEIGHT x y.
Proof.
  apply (returned_grid_is_rectangular MAZE_WIDTH MAZE_HEIGHT sample_rnd 441);
    [unfold GOAL_X; lia|exact sample_maze_generated].
Defined.

Lemma rectangular_lookup width height m (x y : nat) :
  rectangular width height m ->
  inb width height (Z.of_nat x) (Z.of_nat y) ->
  exists row cell, m !! y = Some row /\ length row = Z.to_nat width /\
                   row !! x = Some (Some cell) /\
                   read m (Z.of_nat x) (Z.of_nat y) = Some cell.
Proof.
  intros [Hlen Hrows] [Hx Hy]. unfold Maze, Row in *.
  destruct (lookup_lt_is_Some_2 m y) as [row Er]; [lia|].
  destruct (Hrows row) as [Hl Hc]; [by eapply list_elem_of_lookup_2|].
  destruct (lookup_lt_is_Some_2 row x) as [c Ec]; [lia|].
  destruct (Hc c) as [cell ->]; [by eapply list_elem_of_lookup_2|].
  exists row, cell. split_and!; [done..|].
  unfold read, row_at, elem_at, Maze, Row.
  destruct (Z.ltb_spec (Z.of_nat y) 0); [lia|].
  destruct (Z.ltb_spec (Z.of_nat x) 0); [lia|].
  by rewrite !Nat2Z.id, Er, Ec.
Qed.

Lemma className_cases playerX playerY x y cell :
  (className playerX playerY x y cell = cell_player
   <-> x = playerX /\ y = playerY) /\
  (className playerX playerY x y cell = cell_goal
   <-> ~ (x = playerX /\ y = playerY) /\ x = GOAL_X /\ y = GOAL_Y) /\
  (className playerX playerY x y cell = cell_path
   <-> ~ (x = playerX /\ y = playerY) /\ ~ (x = GOAL_X /\ y = GOAL_Y) /\
       cell = Path) /\
  (className playerX playerY x y cell = cell_wall
   <-> ~ (x = playerX /\ y = playerY) /\ ~ (x = GOAL_X /\ y = GOAL_Y) /\
       cell = Wall).
Proof.
  unfold className.
  destruct (Z.eqb_spec x playerX), (Z.eqb_spec y playerY),
    (Z.eqb_spec x GOAL_X), (Z.eqb_spec y GOAL_Y), cell; simpl;
    split_and!; split; try done; try tauto; intros (? & ? & ?); try done; tauto.
Qed.

Lemma render_cell_lookup (maze : Maze) (playerX playerY : Z) (x y : nat)
    (row : Row) (slot : option Cell) :
  maze !! y = Some row -> row !! x = Some slot ->
  exists classes,
    render maze playerX playerY !! y = Some classes /\
    length classes = length row /\
    classes !! x
    = Some (className playerX playerY (Z.of_nat x) (Z.of_nat y) <$> slot).
Proof.
  intros Er Ec. unfold render, Maze, Row in *.
  eexists. split; [by rewrite list_lookup_imap, Er|].
  split; [apply length_imap|]. by rewrite list_lookup_imap, Ec.
Qed.

(** X13. The game as it is drawn. On a grid returned by [generateMaze] for
    odd [width] and [height] that exceed [GOAL_X] and [GOAL_Y], after any
    sequence of keys from the start cell: the rendering has [height] rows of
    [width] class names, none missing; ['cell player'] is the class of the
    player's cell and of no other; ['cell goal'] is the class of
    [(GOAL_X, GOAL_Y)] unless the player is there; ['cell wall'] is drawn
    exactly on the walls of the grid, so the player and the goal are never
    drawn on a wall. *)
Theorem game_rendering (width height : Z) (rnd : nat -> nat) (fuel : nat)
    (g : Maze) (keys : list Key) :
  width mod 2 = 1 -> height mod 2 = 1 -> GOAL_X < width -> GOAL_Y < height ->
  generateMaze fuel rnd width height = Returned g ->
  exists pos,
    play g (START_X, START_Y) keys = Returned pos /\
    length (render g pos.1 pos.2) = Z.to_nat height /\
    forall x y : nat, inb width height (Z.of_nat x) (Z.of_nat y) ->
      exists classes cls,
        render g pos.1 pos.2 !! y = Some classes /\
        length classes = Z.to_nat width /\
        classes !! x = Some (Some cls) /\
        (cls = cell_player <-> (Z.of_nat x, Z.of_nat y) = pos) /\
        (cls = cell_goal <-> (Z.of_nat x, Z.of_nat y) = (GOAL_X, GOAL_Y) /\
                             (Z.of_nat x, Z.of_nat y) <> pos) /\
        (cls = cell_wall <-> read g (Z.of_nat x) (Z.of_nat y) = Some Wall).
Proof.
  intros Hw Hh Hgx Hgy Hg.
  assert (Hw3 : 3 <= width) by (unfold GOAL_X, MAZE_WIDTH in Hgx; lia).
  assert (Hh3 : 3 <= height) by (unfold GOAL_Y, MAZE_HEIGHT in Hgy; lia).
  pose proof (generateMaze_rectangular width height rnd fuel g Hgx Hg) as Hrect.
  destruct (generateMaze_Returned width height Hw Hh Hw3 Hh3 rnd fuel g Hg)
    as (st0 & st & _ & _ & _ & Hinv & Hs & _ & Hr).
  pose proof (reach_final width height Hw3 Hh3 st g Hinv Hs Hgy Hr) as Hreach.
  assert (Hstart : reach g (START_X, START_Y) (START_X, START_Y)).
  { apply Hreach. split; [unfold inb, START_X, START_Y; simpl; lia|].
    unfold is_path. simpl. rewrite Hr. case_decide; [done|]. apply Hinv. }
  destruct (play_stays_reachable g _ keys _ Hstart) as ([px py] & Hplay & R).
  apply reach_is_path in R. unfold is_path in R. simpl in R.
  assert (Hgoal : read g GOAL_X GOAL_Y = Some Path).
  { rewrite Hr, decide_True by done. done. }
  exists (px, py). split; [done|]. simpl.
  split; [unfold render; rewrite length_imap; apply Hrect|].
  intros x y Hin.
  destruct (rectangular_lookup width height g x y Hrect Hin)
    as (row & cell & Er & Hl & Ec & Hread).
  destruct (render_cell_lookup g px py x y row (Some cell) Er Ec) as (classes & Hc1 & Hc2 & Hc3).
  exists classes, (className px py (Z.of_nat x) (Z.of_nat y) cell).
  split; [done|]. split; [lia|]. split; [done|].
  destruct (className_cases px py (Z.of_nat x) (Z.of_nat y) cell)
    as (Cp & Cg & _ & Cw).
  rewrite Cp, Cg, Cw, Hread. split_and!.
  - split; [intros [? ?]; by f_equal|intros [= ? ?]; by split].
  - split.
    + intros (Hnp & ? & ?). split; [by f_equal|].
      intros [= ? ?]. by apply Hnp.
    + intros ([= ? ?] & Hne). split_and!; [|done..].
      intros [? ?]. apply Hne. by f_equal.
  - split; [by intros (_ & _ & ->)|]. intros [= ->]. split_and!; [| |done].
    + intros [? ?]. subst. congruence.
    + intros [? ?]. congruence.
Qed.

Lemma game_rendering_witness :
  exists pos,
    play sample_maze (START_X, START_Y) [ArrowDown; ArrowDown; ArrowRight]
    = Returned pos /\
    length (render sample_maze pos.1 pos.2) = Z.to_nat MAZE_HEIGHT /\
    forall x y : nat, inb MAZE_WIDTH MAZE_HEIGHT (Z.of_nat x) (Z.of_nat y) ->
      exists classes cls,
        render sample_maze pos.1 pos.2 !! y = Some classes /\
        length classes = Z.to_nat MAZE_WIDTH /\
        classes !! x = Some (Some cls) /\
        (cls = cell_player <-> (Z.of_nat x, Z.of_nat y) = pos) /\
        (cls = cell_goal <-> (Z.of_nat x, Z.of_nat y) = (GOAL_X, GOAL_Y) /\
                             (Z.of_nat x, Z.of_nat y) <> pos) /\
        (cls = cell_wall <-> read sample_maze (Z.of_nat x) (Z.of_nat y) = Some Wall).
Proof.
  apply (game_rendering MAZE_WIDTH MAZE_HEIGHT sample_rnd 441 sample_maze);
    [reflexivity|reflexivity|unfold GOAL_X; lia|unfold GOAL_Y; lia
    |exact sample_maze_generated].
Defined.

(* ===================================================================== *)
(** ** The carving graph of the whole returned grid *)

(** The counts inside the rectangle, for odd dimensions of at least 3: the
    lattice passages, the other passages, and all of them. *)
Lemma rectangle_counts (width height : Z) (st : LoopState) (g : Maze) :
  loop_inv width height st -> ls_stack st = [] ->
  (forall x y, read g x y =
     if decide (x = GOAL_X /\ y = GOAL_Y) then Some Path
     else read (ls_maze st) x y) ->
  nodes width height g = (Z.to_nat (height / 2) * Z.to_nat (width / 2))%nat /\
  nodes width height g = S (edges width height g) /\
  length (carved_cells width height g)
  = (nodes width height g + edges width height g)%nat.
Proof.
  intros Hinv Hs Hr.
  pose proof (goal_write_inside width height st g Hinv Hs Hr) as Hin.
  pose proof (li_grid _ _ _ Hinv) as Hgi.
  assert (En : nodes width height g = length (lattice_cells width height)).
  { unfold nodes, lattice_cells. f_equal. apply filter_agree.
    intros [a b] Hc%elem_of_cells. split; [tauto|]. intros Hl. split; [|done].
    unfold is_path. simpl. rewrite Hin by done.
    by apply (lattice_complete width height st Hinv Hs). }
  assert (Em : nodes width height (ls_maze st) = nodes width height g).
  { unfold nodes. f_equal. apply filter_agree. intros [a b] Hc%elem_of_cells.
    unfold is_path. simpl. by rewrite Hin. }
  assert (Ee : edges width height (ls_maze st) = edges width height g).
  { unfold edges. f_equal. apply filter_agree. intros [a b] Hc%elem_of_cells.
    unfold is_path. simpl. by rewrite Hin. }
  pose proof (gi_count _ _ _ Hgi) as Hcount.
  rewrite length_lattice_cells in En. split_and!; [done|lia|].
  unfold carved_cells. rewrite (filter_split_length _ lattice).
  by fold (nodes width height g) (edges width height g).
Qed.

(** C2, at the dimensions 5 x 21. Whatever the random draws, the passages of
    the grid returned by [generateMaze(5, 21)], wherever they lie, do not
    form a tree: the grid holds 21 passages with two odd coordinates (the
    nodes, the stray cell [(GOAL_X, GOAL_Y)] among them) and 19 other
    passages (the edges), 40 passages in all, of which 39 are reached from
    the start cell. A tree on 21 nodes has 20 edges and is connected. *)
Theorem carving_graph_not_a_tree_5x21 (rnd : nat -> nat) :
  exists g node_list edge_list path_list reached_list,
    generateMaze 105 rnd 5 21 = Returned g /\
    enumerates node_list (fun c => is_path g c /\ lattice c) /\
    length node_list = 21%nat /\
    enumerates edge_list (fun c => is_path g c /\ ~ lattice c) /\
    length edge_list = 19%nat /\
    enumerates path_list (is_path g) /\
    length path_list = 40%nat /\
    enumerates reached_list (reach g (START_X, START_Y)) /\
    length reached_list = 39%nat /\
    (GOAL_X, GOAL_Y) ∈ node_list /\ (GOAL_X, GOAL_Y) ∉ reached_list.
Proof.
  destruct (carve_5x21 rnd) as (st0 & st & g & _ & _ & _ & Hg & Hinv & Hs & Hr).
  pose proof (li_grid _ _ _ Hinv) as Hgi.
  destruct (rectangle_counts 5 21 st g Hinv Hs Hr) as (Hn & Hne & Hall).
  change (Z.to_nat (21 / 2) * Z.to_nat (5 / 2))%nat with 20%nat in Hn.
  assert (Hout : ~ inb 5 21 GOAL_X GOAL_Y).
  { unfold inb, GOAL_X, MAZE_WIDTH. lia. }
  assert (Hgoal : is_path g (GOAL_X, GOAL_Y)).
  { unfold is_path. simpl. by rewrite Hr, decide_True. }
  assert (Hsplit : forall c, is_path g c ->
            c = (GOAL_X, GOAL_Y) \/ c ∈ cells 5 21).
  { intros [a b] Hp. unfold is_path in Hp. simpl in Hp. rewrite Hr in Hp.
    case_decide as Hd; [left; destruct Hd; congruence|right].
    apply (gi_path _ _ _ Hgi) in Hp as (Hx & Hy & _).
    apply elem_of_cells. unfold inb. lia. }
  assert (Hnotin : forall P `{!forall c, Decision (P c)},
            (GOAL_X, GOAL_Y) ∉ filter P (cells 5 21)).
  { intros P ? [_ Hc%elem_of_cells]%list_elem_of_filter. done. }
  exists g,
         ((GOAL_X, GOAL_Y)
          :: filter (fun c => is_path g c /\ lattice c) (cells 5 21)),
         (filter (fun c => is_path g c /\ ~ lattice c) (cells 5 21)),
         ((GOAL_X, GOAL_Y) :: carved_cells 5 21 g),
         (carved_cells 5 21 g).
  unfold nodes, edges in Hn, Hne, Hall.
  split; [done|]. split_and!.
  - split.
    + apply NoDup_cons. split; [apply Hnotin; apply _|].
      apply NoDup_filter, NoDup_cells.
    + intros c. rewrite elem_of_cons, list_elem_of_filter. split.
      * intros [-> |[? _]]; [|done]. split; [done|]. by split.
      * intros [Hp Hl]. destruct (Hsplit c Hp); [by left|right; done].
  - simpl. lia.
  - split; [apply NoDup_filter, NoDup_cells|].
    intros c. rewrite list_elem_of_filter. split; [tauto|].
    intros [Hp Hl]. split; [done|].
    destruct (Hsplit c Hp) as [-> |]; [|done]. destruct Hl. by split.
  - lia.
  - split.
    + apply NoDup_cons. split; [apply Hnotin; apply _|].
      apply NoDup_filter, NoDup_cells.
    + intros c. unfold carved_cells.
      rewrite elem_of_cons, list_elem_of_filter. split.
      * intros [-> |[? _]]; done.
      * intros Hp. destruct (Hsplit c Hp); [by left|right; done].
  - simpl. lia.
  - split; [apply NoDup_filter, NoDup_cells|].
    intros [a b]. unfold carved_cells.
    rewrite list_elem_of_filter, elem_of_cells.
    rewrite (reach_final 5 21 ltac:(lia) ltac:(lia) st g Hinv Hs)
      by (done || (unfold GOAL_Y, MAZE_HEIGHT; lia)).
    simpl. tauto.
  - lia.
  - left.
  - apply Hnotin; apply _.
Qed.
